(** * Sonic Pi code help: command descriptions, formatter, parser, registry, word resolver

    A shallow embedding of [src/codehelp.ts].  JavaScript strings are
    modelled as [string]; a character stands for one UTF-16 code unit
    below 256.  JavaScript objects used as string-keyed maps are modelled
    as [gmap string _] holding their own properties; the two places where
    the code reads through the prototype chain of a plain object are
    written out ([inheritedFromObject], [jsSet]). *)

From Stdlib Require Import String Ascii List Arith Bool Lia DecimalString.
From stdpp Require Import base option list strings gmap.

Set Warnings "-register-all".

Local Open Scope string_scope.
Local Open Scope list_scope.
Local Open Scope nat_scope.

(** ** JavaScript string primitives *)

Module Js.

(** [Array.prototype.join] on an array of strings. *)
Definition join (sep : string) (xs : list string) : string :=
  String.concat sep xs.

(** [s.indexOf(pat)], with [None] for [-1]. *)
Definition indexOf (pat s : string) : option nat := String.index 0 pat s.

(** [s.startsWith(pat)]. *)
Definition startsWith (pat s : string) : bool := String.prefix pat s.

(** [s.charAt(i)]: the empty string when [i] is out of range. *)
Definition charAt (s : string) (i : nat) : option ascii := String.get i s.

(** [s.substr(start, len)]. *)
Definition substr (s : string) (start len : nat) : string :=
  String.substring start len s.

Definition code (a : ascii) : nat := nat_of_ascii a.

(** The class [\s] of a regular expression, on code units below 256:
    TAB, LF, VT, FF, CR, space and the no-break space. *)
Definition isSpace (a : ascii) : bool :=
  let n := code a in
  (((9 <=? n) && (n <=? 13)) || (n =? 32) || (n =? 160))%nat.

(** Line terminators, which [.] does not match: LF and CR. *)
Definition isLineTerminator (a : ascii) : bool :=
  let n := code a in ((n =? 10) || (n =? 13))%nat.

Definition isDigit (a : ascii) : bool :=
  let n := code a in ((48 <=? n) && (n <=? 57))%nat.

(** [a-z] under the [i] flag: the ASCII letters of both cases. *)
Definition isLetter (a : ascii) : bool :=
  let n := code a in
  (((65 <=? n) && (n <=? 90)) || ((97 <=? n) && (n <=? 122)))%nat.

Fixpoint all (p : ascii -> bool) (s : string) : bool :=
  match s with
  | EmptyString => true
  | String a s' => p a && all p s'
  end.

(** [s.replace(/\s+$/, '')]: the leftmost position from which only
    white space follows is where the match starts. *)
Fixpoint stripTrailingSpace (s : string) : string :=
  match s with
  | EmptyString => EmptyString
  | String a s' =>
      if all isSpace s then EmptyString else String a (stripTrailingSpace s')
  end.

Fixpoint last (s : string) : option ascii :=
  match s with
  | EmptyString => None
  | String a EmptyString => Some a
  | String _ s' => last s'
  end.

(** [s.replace(/\r?\n/g, "\r\n")]. *)
Fixpoint crlf (s : string) : string :=
  match s with
  | EmptyString => EmptyString
  | String a s' =>
      if (code a =? 10)%nat
      then String "013" (String "010" (crlf s'))
      else
        match s' with
        | String b s'' =>
            if ((code a =? 13) && (code b =? 10))%nat
            then String "013" (String "010" (crlf s''))
            else String a (crlf s')
        | EmptyString => String a EmptyString
        end
  end.

End Js.

Definition CR : string := String "013" EmptyString.
Definition LF : string := String "010" EmptyString.
Definition CRLF : string := CR +:+ LF.

(** ** The data model *)

(** [vscode.MarkdownString]: the text and the trust flag (unset reads as
    [false]). *)
Record MarkdownString := { value : string; isTrusted : bool }.

Definition newMarkdownString (s : string) : MarkdownString :=
  {| value := s; isTrusted := false |}.

Definition trusted (m : MarkdownString) : MarkdownString :=
  {| value := value m; isTrusted := true |}.

Definition appendMarkdown (m : MarkdownString) (s : string) : MarkdownString :=
  {| value := value m +:+ s; isTrusted := isTrusted m |}.

Inductive CodeHelpDetailLevel := OFF | MINIMUM | NO_EXAMPLES_NO_LINKS | FULL.

Inductive SonicPiTypeDescription :=
  UNKNOWN | ANY | RATIONAL_PATTERN | CONTROL_PATTERN | TIME_PATTERN.

(** [SonicPiTypeDescription[t]], the reverse mapping of the enum. *)
Definition typeName (t : SonicPiTypeDescription) : string :=
  match t with
  | UNKNOWN => "UNKNOWN"
  | ANY => "ANY"
  | RATIONAL_PATTERN => "RATIONAL_PATTERN"
  | CONTROL_PATTERN => "CONTROL_PATTERN"
  | TIME_PATTERN => "TIME_PATTERN"
  end.

Module Parm.
Record t := mk {
  name : string;
  help : MarkdownString;
  editable : option bool;
  type : option SonicPiTypeDescription
}.
End Parm.
Abbreviation SonicPiParameterDescription := Parm.t.

Record SonicPiCommandDescription := {
  command : string;
  formattedCommand : list MarkdownString;
  parameters : option (list SonicPiParameterDescription);
  returns : option MarkdownString;
  help : option MarkdownString;
  examples : option (list MarkdownString)
}.

(** A value that is either a string or a [MarkdownString]. *)
Inductive Text := Str (s : string) | Md (m : MarkdownString).

(** A value that is either one item or an array of items. *)
Inductive OneOrMany (A : Type) := One (a : A) | Many (l : list A).
Arguments One {A} a.
Arguments Many {A} l.

(** The constructor's [config] argument; an absent property is [None]. *)
Record Config := {
  cfg_command : string;
  cfg_formattedCommand : option (OneOrMany Text);
  cfg_parameters : option (list SonicPiParameterDescription);
  cfg_returns : option Text;
  cfg_help : option Text;
  cfg_examples : option (OneOrMany Text)
}.

(** ** The constructor of [SonicPiCommandDescription] *)

Definition toMarkdown (x : Text) : MarkdownString :=
  match x with
  | Str s => newMarkdownString s
  | Md m => m
  end.

(** Lines 64-68: [editable] defaults to [false]. *)
Definition defaultParameter (parm : SonicPiParameterDescription)
  : SonicPiParameterDescription :=
  Parm.mk (Parm.name parm) (Parm.help parm)
    (Some (match Parm.editable parm with
           | None => false
           | Some b => b
           end))
    (Parm.type parm).

Definition trustParameter (p : SonicPiParameterDescription)
  : SonicPiParameterDescription :=
  Parm.mk (Parm.name p) (trusted (Parm.help p))
    (Parm.editable p) (Parm.type p).

(** Lines 71-78: the signature made up when none is supplied. *)
Definition synthesizedCommand (command : string)
    (given : option (list SonicPiParameterDescription))
    (defaulted : list SonicPiParameterDescription) : string :=
  match given with
  | None => command +:+ " ?"
  | Some _ => command +:+ " " +:+ Js.join " " (map Parm.name defaulted)
  end.

(** Lines 85-89: a signature string is indented by four spaces unless it
    holds a backtick and already starts with four spaces. *)
Definition indentCommand (cmd : string) : string :=
  if bool_decide (Js.indexOf "`" cmd = None)
     || negb (bool_decide (Js.indexOf "    " cmd = Some 0))
  then "    " +:+ cmd
  else cmd.

Definition commandBlock (cmd : Text) : MarkdownString :=
  match cmd with
  | Str s => newMarkdownString (indentCommand s)
  | Md m => m
  end.

(** Line 124, first replacement [/(\s*\r?\n)*$/]: the match is the
    trailing run of white space when the string ends with a line feed, and
    empty otherwise. *)
Definition stripTrailingBlankLines (x : string) : string :=
  match Js.last x with
  | Some a => if (Js.code a =? 10)%nat then Js.stripTrailingSpace x else x
  | None => x
  end.

(** Lines 124-128: an example string of an array, normalised and fenced. *)
Definition fenced (x : string) : string :=
  "~~~" +:+ LF +:+ Js.crlf (stripTrailingBlankLines x) +:+ LF +:+ "~~~" +:+ LF.

Definition exampleBlock (x : Text) : MarkdownString :=
  match x with
  | Str s => newMarkdownString (fenced s)
  | Md m => m
  end.

Definition new_SonicPiCommandDescription (config : Config)
  : SonicPiCommandDescription :=
  let parameters' :=
    match cfg_parameters config with
    | None => []
    | Some ps => map defaultParameter ps
    end in
  let formattedCommand' :=
    match cfg_formattedCommand config with
    | None =>
        One (Str (synthesizedCommand (cfg_command config)
                    (cfg_parameters config) parameters'))
    | Some fc => fc
    end in
  let blocks :=
    match formattedCommand' with
    | One x => [x]
    | Many l => l
    end in
  let examples' :=
    match cfg_examples config with
    | None => []
    | Some (One (Str s)) => [newMarkdownString s]
    | Some (Many l) => map exampleBlock l
    | Some (One (Md m)) => [m]
    end in
  {| command := cfg_command config;
     formattedCommand := map trusted (map commandBlock blocks);
     parameters := Some (map trustParameter parameters');
     returns := option_map (fun r => trusted (toMarkdown r)) (cfg_returns config);
     help := option_map (fun h => trusted (toMarkdown h)) (cfg_help config);
     examples := Some (map trusted examples') |}.

(** ** The formatter *)

Definition hline : string := CRLF +:+ "- - -" +:+ CRLF +:+ CRLF.

(** Lines 166-168: one parameter line; the type tag only when a type is set. *)
Definition typeTag (x : SonicPiParameterDescription) : string :=
  match Parm.type x with
  | Some t => "`" +:+ typeName t +:+ "`"
  | None => ""
  end.

Definition formatParameter (x : SonicPiParameterDescription) : string :=
  "`" +:+ Parm.name x +:+ "` " +:+ typeTag x +:+ " "
  +:+ value (Parm.help x).

(** The four pieces [format] appends, each as a function of the text
    built so far. *)
Definition signatureSection (d : SonicPiCommandDescription) (withCommand : bool)
  : string :=
  if withCommand
  then Js.join ("    " +:+ LF) (map value (formattedCommand d))
  else "".

Definition helpSection (d : SonicPiCommandDescription) (sofar : string) : string :=
  match help d with
  | None => ""
  | Some h => (if (0 <? String.length sofar)%nat then hline else "") +:+ value h
  end.

Definition parametersSection (d : SonicPiCommandDescription) : string :=
  match parameters d with
  | None => ""
  | Some [] => ""
  | Some ps => hline +:+ Js.join ("    " +:+ CRLF) (map formatParameter ps)
  end.

Definition returnsSection (d : SonicPiCommandDescription) : string :=
  match returns d with
  | None => ""
  | Some r => CRLF +:+ CRLF +:+ "Returns: " +:+ value r
  end.

Definition examplesSection (d : SonicPiCommandDescription) : string :=
  match examples d with
  | None => ""
  | Some [] => ""
  | Some es =>
      hline +:+ "Examples:" +:+ CRLF +:+ CRLF
      +:+ Js.join ("    " +:+ CRLF) (map value es)
  end.

Definition format (d : SonicPiCommandDescription)
    (detailLevel : CodeHelpDetailLevel) (withCommand : bool)
  : option MarkdownString :=
  match detailLevel with
  | OFF => None
  | _ =>
      let ms := trusted (newMarkdownString "") in
      let ms := appendMarkdown ms (signatureSection d withCommand) in
      match detailLevel with
      | MINIMUM => Some ms
      | _ =>
          let ms := appendMarkdown ms (helpSection d (value ms)) in
          let ms := appendMarkdown ms (parametersSection d) in
          let ms := appendMarkdown ms (returnsSection d) in
          match detailLevel with
          | NO_EXAMPLES_NO_LINKS => Some ms
          | _ => Some (appendMarkdown ms (examplesSection d))
          end
      end
  end.

(** ** Decoded definition trees *)

(** What the YAML decoder hands over: null, booleans, numbers, strings,
    sequences and mappings.  A number is carried as the text that
    JavaScript's number-to-string conversion gives for it; a mapping is
    the list of its own properties in [Object.entries] order. *)
Inductive yvalue :=
| YNull
| YBool (b : bool)
| YNum (shown : string)
| YStr (s : string)
| YSeq (items : list yvalue)
| YMap (props : list (string * yvalue)).

(** What a JavaScript call can throw here: [new Error(msg)], or the
    [TypeError] of a built-in. *)
Inductive Exn := Error (msg : string) | TypeError.

Inductive Result (A : Type) := Ok (a : A) | Throw (e : Exn).
Arguments Ok {A} a.
Arguments Throw {A} e.

Definition bind {A B} (r : Result A) (k : A -> Result B) : Result B :=
  match r with
  | Ok a => k a
  | Throw e => Throw e
  end.

Notation "'let*' x := r 'in' k" := (bind r (fun x => k))
  (at level 10, x name, r at level 100, k at level 200).

Fixpoint mapM {A B} (f : A -> Result B) (l : list A) : Result (list B) :=
  match l with
  | [] => Ok []
  | a :: l' => let* b := f a in let* bs := mapM f l' in Ok (b :: bs)
  end.

(** Threading a state through the callbacks of a [map] over entries. *)
Fixpoint foldM {A S} (f : S -> A -> Result S) (s : S) (l : list A) : Result S :=
  match l with
  | [] => Ok s
  | a :: l' => let* s' := f s a in foldM f s' l'
  end.

Definition typeof (v : yvalue) : string :=
  match v with
  | YNull | YSeq _ | YMap _ => "object"
  | YBool _ => "boolean"
  | YNum _ => "number"
  | YStr _ => "string"
  end.

Definition indexKey (i : nat) : string := NilZero.string_of_uint (Nat.to_uint i).

Definition hasOwn (k : string) (props : list (string * yvalue)) : bool :=
  existsb (fun kv => String.eqb (fst kv) k) props.

(** [Object.entries(v)]: a mapping gives its properties, a sequence its
    items under their indices, a string its characters; null throws. *)
Definition objectEntries (v : yvalue) : Result (list (string * yvalue)) :=
  match v with
  | YNull => Throw TypeError
  | YBool _ | YNum _ => Ok []
  | YStr s =>
      Ok (imap (fun i a => (indexKey i, YStr (String a EmptyString)))
            (list_ascii_of_string s))
  | YSeq items => Ok (imap (fun i x => (indexKey i, x)) items)
  | YMap props => Ok props
  end.

(** [""+v], line 309.  A sequence joins its items with commas, null items
    as empty strings.  A mapping reads ["[object Object]"] through
    [Object.prototype.toString]; when it has a property [toString] of its
    own, that property is data, not a function, and the conversion throws. *)
Fixpoint toStringJs (v : yvalue) : Result string :=
  match v with
  | YNull => Ok "null"
  | YBool true => Ok "true"
  | YBool false => Ok "false"
  | YNum shown => Ok shown
  | YStr s => Ok s
  | YSeq items =>
      let* strs := (fix items_to_strings (l : list yvalue) : Result (list string) :=
                 match l with
                 | [] => Ok []
                 | x :: l' =>
                     let* s := match x with
                          | YNull => Ok ""
                          | _ => toStringJs x
                          end in
                     let* ss := items_to_strings l' in
                     Ok (s :: ss)
                 end) items in
      Ok (Js.join "," strs)
  | YMap props =>
      if hasOwn "toString" props then Throw TypeError else Ok "[object Object]"
  end.

Definition stringsOf (items : list yvalue) : list string :=
  omap (fun x => match x with YStr s => Some s | _ => None end) items.

(** ** The definition parser *)

(** The local variables of the callback at lines 273-277. *)
Record Locals := {
  l_parameters : option (list SonicPiParameterDescription);
  l_examples : option (list string);
  l_formattedCommand : list string;
  l_help : option string;
  l_returns : option string
}.

Definition initialLocals : Locals :=
  {| l_parameters := None; l_examples := None; l_formattedCommand := [];
     l_help := None; l_returns := None |}.

Definition isOneOf (names : list string) (property : string) : bool :=
  existsb (String.eqb property) names.

(** Lines 306-316: one entry of a parameters mapping. *)
Definition parseParameter (entry : string * yvalue)
  : Result SonicPiParameterDescription :=
  let '(parmName, parmprops) := entry in
  let* shown := match parmprops with
           | YStr s => Ok s
           | _ => toStringJs parmprops
           end in
  Ok (Parm.mk parmName (newMarkdownString shown) None None).

(** Lines 280-332: one property of a descriptor.  Keys given by
    [Object.entries] are strings, so the key-type checks never fire. *)
Definition parseProperty (st : Locals) (entry : string * yvalue) : Result Locals :=
  let '(property, value) := entry in
  if isOneOf ["cmd"; "formattedCommand"] property then
    match value with
    | YStr s =>
        Ok {| l_parameters := l_parameters st; l_examples := l_examples st;
              l_formattedCommand := [s];
              l_help := l_help st; l_returns := l_returns st |}
    | YSeq items =>
        Ok {| l_parameters := l_parameters st; l_examples := l_examples st;
              l_formattedCommand := stringsOf items;
              l_help := l_help st; l_returns := l_returns st |}
    | _ => Ok st
    end
  else if isOneOf ["return"; "returns"] property then
    match value with
    | YStr s =>
        Ok {| l_parameters := l_parameters st; l_examples := l_examples st;
              l_formattedCommand := l_formattedCommand st;
              l_help := l_help st; l_returns := Some s |}
    | _ => Ok st
    end
  else if isOneOf ["help"; "doc"] property then
    match value with
    | YStr s =>
        Ok {| l_parameters := l_parameters st; l_examples := l_examples st;
              l_formattedCommand := l_formattedCommand st;
              l_help := Some s; l_returns := l_returns st |}
    | _ => Ok st
    end
  else if isOneOf ["parm"; "param"; "params"; "parameters"] property then
    match value with
    | YSeq _ | YMap _ =>
        let* entries := objectEntries value in
        let* parms := mapM parseParameter entries in
        Ok {| l_parameters := Some parms; l_examples := l_examples st;
              l_formattedCommand := l_formattedCommand st;
              l_help := l_help st; l_returns := l_returns st |}
    | _ => Ok st
    end
  else if isOneOf ["example"; "examples"] property then
    match value with
    | YStr s =>
        Ok {| l_parameters := l_parameters st; l_examples := Some [s];
              l_formattedCommand := l_formattedCommand st;
              l_help := l_help st; l_returns := l_returns st |}
    | YSeq items =>
        Ok {| l_parameters := l_parameters st;
              l_examples := Some (stringsOf items);
              l_formattedCommand := l_formattedCommand st;
              l_help := l_help st; l_returns := l_returns st |}
    | _ => Ok st
    end
  else Ok st.

(** Line 341: the configuration handed to the constructor.  It has no
    [examples] property. *)
Definition configOf (command : string) (st : Locals) : Config :=
  {| cfg_command := command;
     cfg_formattedCommand := Some (Many (map Str (l_formattedCommand st)));
     cfg_parameters := l_parameters st;
     cfg_returns := option_map Str (l_returns st);
     cfg_help := option_map Str (l_help st);
     cfg_examples := None |}.

(** Lines 268-342: one top-level entry. *)
Definition parseEntry (entry : string * yvalue) : Result SonicPiCommandDescription :=
  let '(command, v) := entry in
  match v with
  | YNull | YSeq _ | YMap _ =>
      let* entries := objectEntries (match v with YNull => YMap [] | _ => v end) in
      let* st := foldM parseProperty initialLocals entries in
      Ok (new_SonicPiCommandDescription (configOf command st))
  | YStr s =>
      Ok (new_SonicPiCommandDescription (configOf s initialLocals))
  | _ =>
      Throw (Error ("Invalid command description value type " +:+ typeof v))
  end.

Definition parseYamlDefinitions (ydef : yvalue)
  : Result (list SonicPiCommandDescription) :=
  let* entries := objectEntries ydef in
  mapM parseEntry entries.

(** ** The word resolver *)

Record Position := { line : nat; character : nat }.

Record Range := {
  startLine : nat; startCharacter : nat;
  endLine : nat; endCharacter : nat
}.

(** [new Range(l1, c1, l2, c2)]: the host swaps the two ends when the
    first lies after the second. *)
Definition newRange (l1 c1 l2 c2 : nat) : Range :=
  if (l2 <? l1) || ((l1 =? l2) && (c2 <? c1))
  then {| startLine := l2; startCharacter := c2; endLine := l1; endCharacter := c1 |}
  else {| startLine := l1; startCharacter := c1; endLine := l2; endCharacter := c2 |}.

Record WordAtCursor := { word : option string; range : option Range }.

(** Whether [/--.*$/] matches starting at the head of [s]. *)
Definition commentAt (s : string) : bool :=
  match s with
  | String a (String b rest) =>
      (Js.code a =? 45) && (Js.code b =? 45)
      && Js.all (fun c => negb (Js.isLineTerminator c)) rest
  | _ => false
  end.

(** [s.replace(/--.*$/, '')]. *)
Fixpoint stripComment (s : string) : string :=
  match s with
  | EmptyString => EmptyString
  | String a s' => if commentAt s then EmptyString else String a (stripComment s')
  end.

(** Line 346. *)
Definition trimmedLine (lineText : string) : string :=
  Js.stripTrailingSpace (stripComment lineText).

(** [/^[0-9a-z_]$/i] and [/^[0-9a-z_']$/i] on the result of [charAt]. *)
Definition matchesLeft (c : option ascii) : bool :=
  match c with
  | Some a => Js.isDigit a || Js.isLetter a || (Js.code a =? 95)
  | None => false
  end.

Definition matchesRight (c : option ascii) : bool :=
  match c with
  | Some a => Js.isDigit a || Js.isLetter a || (Js.code a =? 95) || (Js.code a =? 39)
  | None => false
  end.

(** Lines 350-358, entered with [startChar = n] and [i = n - 1]. *)
Fixpoint scanLeft (line : string) (n : nat) : nat :=
  match n with
  | 0 => 0
  | S i => if matchesLeft (Js.charAt line i) then scanLeft line i else S i
  end.

(** Lines 359-368 at index [i], with [steps] rounds of the loop left. *)
Fixpoint scanRight (line : string) (steps i : nat) : nat :=
  match steps with
  | 0 => i
  | S steps' =>
      if i <? String.length line
      then if matchesRight (Js.charAt line i)
           then scanRight line steps' (S i)
           else i
      else i
  end.

Definition getWordAtCursor (lineText : string) (position : Position) : WordAtCursor :=
  let line' := trimmedLine lineText in
  if String.length line' <? character position
  then {| word := None; range := None |}
  else
    let startChar := scanLeft line' (character position) in
    let endChar :=
      scanRight line' (S (String.length line' - character position))
        (character position) in
    {| word := Some (Js.substr line' startChar (endChar - startChar));
       range := Some (newRange (line position) startChar (line position) endChar) |}.

(** ** The registry and its reload *)

Record YamlInfo := { source : string; ydef : yvalue }.

(** The own property names of [Object.prototype]: what a plain object
    answers for without having been given it. *)
Definition objectPrototypeKeys : list string :=
  ["constructor"; "hasOwnProperty"; "isPrototypeOf"; "propertyIsEnumerable";
   "toLocaleString"; "toString"; "valueOf"; "__defineGetter__";
   "__defineSetter__"; "__lookupGetter__"; "__lookupSetter__"; "__proto__"].

Definition inheritedFromObject (k : string) : bool :=
  existsb (String.eqb k) objectPrototypeKeys.

(** [o[k] = v] on a plain object: the key ["__proto__"] goes to the
    prototype setter and gives the object no property of its own. *)
Definition jsSet {A} (o : gmap string A) (k : string) (v : A) : gmap string A :=
  if String.eqb k "__proto__" then o else <[k := v]> o.

(** [typeof (o[k]) === 'undefined'] on a plain object [o] whose own
    properties hold defined values. *)
Definition typeofUndefined {A} (o : gmap string A) (k : string) : bool :=
  bool_decide (o !! k = None) && negb (inheritedFromObject k).

Section Provider.

(** The directory of the extension, [path.join], and
    [yaml.load(readFileSync(p).toString())] with [None] for a throw. *)
Variable extensionPath : string.
Variable pathJoin : string -> string -> string.
Variable loadYaml : string -> option yvalue.

Definition defaultSources : list string :=
  map (pathJoin extensionPath) ["synth.yaml"].

(** Lines 208-224. *)
Definition combinedDefinitions (yamlCommandDefinitions : option (list YamlInfo))
  : list YamlInfo :=
  let loaded :=
    omap (fun defPath =>
            option_map (fun y => {| source := defPath; ydef := y |})
              (loadYaml defPath))
      (match yamlCommandDefinitions with
       | None => defaultSources
       | Some _ => []
       end) in
  foldl (fun x y => x ++ [y])
    (match yamlCommandDefinitions with
     | None => []
     | Some defs => defs
     end)
    loaded.

(** Lines 227-241: every source parsed, a failing one giving nothing. *)
Definition parsedCommands (defs : list YamlInfo) : list SonicPiCommandDescription :=
  foldl (fun x y => x ++ y) []
    (map (fun d => match parseYamlDefinitions (ydef d) with
                   | Ok cmds => cmds
                   | Throw _ => []
                   end) defs).

(** Lines 205-257; the messages shown for failing sources are left out. *)
Definition init (yamlCommandDefinitions : option (list YamlInfo))
    (commandDescriptions : gmap string SonicPiCommandDescription)
  : gmap string SonicPiCommandDescription :=
  let cmds := parsedCommands (combinedDefinitions yamlCommandDefinitions) in
  let commandDescriptions' :=
    foldl (fun reg cmd => jsSet reg (command cmd) cmd) commandDescriptions cmds in
  let newKeys : gmap string bool :=
    foldl (fun x y => jsSet x y true) ∅ (map command cmds) in
  filter (fun kv => typeofUndefined newKeys (fst kv) = false) commandDescriptions'.

End Provider.

(** ** Completion *)

Inductive CompletionItemKind := Snippet.

Record CompletionItem := {
  label : string;
  kind : CompletionItemKind;
  itemRange : Range;
  detail : string;
  insertText : option string
}.

(** [s.replace(/`/g, '')]. *)
Fixpoint removeBackticks (s : string) : string :=
  match s with
  | EmptyString => EmptyString
  | String a s' =>
      if Js.code a =? 96 then removeBackticks s' else String a (removeBackticks s')
  end.

Definition isEditable (x : SonicPiParameterDescription) : bool :=
  match Parm.editable x with
  | Some true => true
  | _ => false
  end.

(** Lines 386-407: the item made for one matching key. *)
Definition completionItem (range : Range) (key : string)
    (cdesc : SonicPiCommandDescription) : CompletionItem :=
  let detail0 :=
    Js.join ("    " +:+ LF)
      (map (fun x => removeBackticks (value x)) (formattedCommand cdesc)) in
  match parameters cdesc with
  | None =>
      {| label := key; kind := Snippet; itemRange := range;
         detail := "SonicPi code"; insertText := None |}
  | Some ps =>
      {| label := key; kind := Snippet; itemRange := range;
         detail := detail0;
         insertText :=
           Some (command cdesc
                 +:+ Js.join " " (map Parm.name (filter (fun x => isEditable x = true) ps))) |}
  end.

(** Lines 373-410.  [Object.keys] is taken in the map's own order. *)
Definition provideCompletionItems
    (commandDescriptions : gmap string SonicPiCommandDescription)
    (lineText : string) (position : Position) : option (list CompletionItem) :=
  let w := getWordAtCursor lineText position in
  match word w, range w with
  | Some word, Some range =>
      Some (map (fun kv => completionItem range (fst kv) (snd kv))
              (filter (fun kv => Js.startsWith word (fst kv) = true)
                 (map_to_list commandDescriptions)))
  | _, _ => None
  end.

(** ** Notions the statements below are written with *)

(** The text [format] gives, when it gives one. *)
Definition formatted (d : SonicPiCommandDescription)
    (detailLevel : CodeHelpDetailLevel) (withCommand : bool) : option string :=
  option_map value (format d detailLevel withCommand).

(** The texts of the signature blocks of a description. *)
Definition signatureTexts (d : SonicPiCommandDescription) : list string :=
  map value (formattedCommand d).

Definition beginsWith (pat s : string) : Prop := String.prefix pat s = true.

(** A description that came out of the constructor. *)
Definition constructed (d : SonicPiCommandDescription) : Prop :=
  exists config, d = new_SonicPiCommandDescription config.

Definition hasBacktick (s : string) : bool :=
  negb (Js.all (fun a => negb (Ascii.eqb a "`")) s).

(** The description a parse pass binds to [k]: the last one named [k]. *)
Definition lastNamed (k : string) (cmds : list SonicPiCommandDescription)
  : option SonicPiCommandDescription :=
  last (filter (fun c => command c = k) cmds).

(** A parameter as the parser makes it: neither [editable] nor [type]. *)
Definition plainParm (p : SonicPiParameterDescription) : Prop :=
  Parm.editable p = None /\ Parm.type p = None.

Definition plainLocals (st : Locals) : Prop :=
  match l_parameters st with
  | Some ps => Forall plainParm ps
  | None => True
  end.

(** What every description coming out of the parser looks like. *)
Definition parsedShape (d : SonicPiCommandDescription) : Prop :=
  exists command st,
    plainLocals st /\ d = new_SonicPiCommandDescription (configOf command st).

(** The identifier characters as the specification lists them:
    [[0-9a-zA-Z_]], and the same with the apostrophe. *)
Definition identifierChars : string :=
  "0123456789abcdefghijklmnopqrstuvwxyzABCDEFGHIJKLMNOPQRSTUVWXYZ_".

Definition inClass (class : string) (a : ascii) : bool :=
  existsb (Ascii.eqb a) (list_ascii_of_string class).

(** The span [[s, e)] on line [l]. *)
Definition span (l s e : nat) : Range :=
  {| startLine := l; startCharacter := s; endLine := l; endCharacter := e |}.

(** The character of [line] at index [i] exists and is in [class]. *)
Definition classAt (class line : string) (i : nat) : Prop :=
  exists a, Js.charAt line i = Some a /\ inClass class a = true.

Definition cursor (l c : nat) : Position := {| line := l; character := c |}.

Definition found (w : string) (r : Range) : WordAtCursor :=
  {| word := Some w; range := Some r |}.

(** Values whose conversion to a string does not throw: no mapping with
    a property [toString] of its own, at the top or among the items. *)
Fixpoint printable (v : yvalue) : bool :=
  match v with
  | YSeq items => forallb printable items
  | YMap props => negb (hasOwn "toString" props)
  | _ => true
  end.

Definition entriesOf (v : yvalue) : list (string * yvalue) :=
  match objectEntries v with
  | Ok entries => entries
  | Throw _ => []
  end.

Definition wellFormedProperty (entry : string * yvalue) : bool :=
  if isOneOf ["parm"; "param"; "params"; "parameters"] (fst entry)
  then match snd entry with
       | YSeq _ | YMap _ =>
           forallb (fun kv => printable (snd kv)) (entriesOf (snd entry))
       | _ => true
       end
  else true.

(** A command's value: an alias string, null, or a descriptor (a sequence
    counts as a descriptor with index keys) whose parameter values can be
    shown. *)
Definition wellFormedDescriptor (v : yvalue) : bool :=
  match v with
  | YStr _ | YNull => true
  | YSeq _ | YMap _ => forallb wellFormedProperty (entriesOf v)
  | _ => false
  end.

(** A well-formed top-level definition tree. *)
Definition wellFormedTree (ydef : yvalue) : bool :=
  match ydef with
  | YMap props => forallb (fun kv => wellFormedDescriptor (snd kv)) props
  | _ => false
  end.

(** ** Sample inputs *)

Definition noteParm : SonicPiParameterDescription :=
  Parm.mk "note" (newMarkdownString "pitch") None None.

Definition ampParm : SonicPiParameterDescription :=
  Parm.mk "amp" (newMarkdownString "loudness") (Some true) (Some ANY).

(** The command [play] with two parameters and no signature. *)
Definition playConfig : Config :=
  {| cfg_command := "play";
     cfg_formattedCommand := None;
     cfg_parameters := Some [noteParm; ampParm];
     cfg_returns := None;
     cfg_help := None;
     cfg_examples := None |}.

(** [play: {help: "plays a note"}] *)
Definition helpOnlyTree : yvalue :=
  YMap [("play", YMap [("help", YStr "plays a note")])].

(** [play: {cmd: "play note", example: "play 60"}] *)
Definition exampleTree : yvalue :=
  YMap [("play", YMap [("cmd", YStr "play note"); ("example", YStr "play 60")])].

(** [play: {params: {note: "pitch"}}] *)
Definition paramsOnlyTree : yvalue :=
  YMap [("play", YMap [("params", YMap [("note", YStr "pitch")])])].

(** What [paramsOnlyTree] parses to. *)
Definition paramsOnlyDescription : SonicPiCommandDescription :=
  new_SonicPiCommandDescription
    (configOf "play"
       {| l_parameters := Some [noteParm]; l_examples := None;
          l_formattedCommand := []; l_help := None; l_returns := None |}).

(** Definition trees for reloads: [{constructor: null, a: null}],
    [{a: null, b: null}] and [{a: null}]. *)
Definition inheritedNameTree : yvalue :=
  YMap [("constructor", YNull); ("a", YNull)].

Definition abTree : yvalue := YMap [("a", YNull); ("b", YNull)].

Definition aTree : yvalue := YMap [("a", YNull)].

(** The description of a command defined with a null descriptor. *)
Definition bareDescription (command : string) : SonicPiCommandDescription :=
  new_SonicPiCommandDescription (configOf command initialLocals).

(** A registry holding [play] as made from [playConfig]. *)
Definition playRegistry : gmap string SonicPiCommandDescription :=
  {[ "play" := new_SonicPiCommandDescription playConfig ]}.

Definition playItem : CompletionItem :=
  {| label := "play"; kind := Snippet; itemRange := span 0 0 2;
     detail := "    play note amp"; insertText := Some "playamp" |}.

(** ** Hover *)

(** What reading a property of the registry object can give: nothing, a
    command description, or some other value (a string, an array, a
    function, a prototype object), on which calling [format] throws. *)
Inductive Lookup :=
| Undefined
| Description (d : SonicPiCommandDescription)
| OtherValue.

(** A field of the prototype description: absent when it holds
    [undefined]. *)
Definition fieldValue {A} (field : option A) : Lookup :=
  match field with
  | Some _ => OtherValue
  | None => Undefined
  end.

(** [this.commandDescriptions[word]], line 418.  [own] holds the
    registry's own properties; [proto] is the description last assigned
    under ["__proto__"] (see [jsSet]), which is then the registry's
    prototype, and [None] while the prototype is still [Object.prototype].
    An own property wins; then come the fields and the class members of
    the prototype description; then what [Object.prototype] answers for. *)
Definition registryGet (own : gmap string SonicPiCommandDescription)
    (proto : option SonicPiCommandDescription) (word : string) : Lookup :=
  match own !! word with
  | Some d => Description d
  | None =>
      match proto with
      | None => if inheritedFromObject word then OtherValue else Undefined
      | Some c =>
          if String.eqb word "__proto__" then Description c
          else if isOneOf ["command"; "formattedCommand"] word then OtherValue
          else if String.eqb word "parameters"
          then fieldValue (parameters c)
          else if String.eqb word "returns"
          then fieldValue (returns c)
          else if String.eqb word "help"
          then fieldValue (help c)
          else if String.eqb word "examples"
          then fieldValue (examples c)
          else if isOneOf ["constructor"; "format"] word then OtherValue
          else if inheritedFromObject word then OtherValue
          else Undefined
      end
  end.

(** [new Hover(contents, range)]. *)
Record Hover := { contents : MarkdownString; hoverRange : Range }.

(** Lines 412-427. *)
Definition provideHover (own : gmap string SonicPiCommandDescription)
    (proto : option SonicPiCommandDescription)
    (lineText : string) (position : Position) : Result (option Hover) :=
  let w := getWordAtCursor lineText position in
  match word w, range w with
  | Some word, Some range =>
      match registryGet own proto word with
      | Undefined => Ok None
      | OtherValue => Throw TypeError
      | Description commandDescription =>
          match format commandDescription FULL true with
          | None => Ok None
          | Some hovermd => Ok (Some {| contents := hovermd; hoverRange := range |})
          end
      end
  | _, _ => Ok None
  end.

(** ** Further notions *)

(** The command name a top-level entry gives: the alias for a string
    value, the key otherwise. *)
Definition entryCommand (entry : string * yvalue) : string :=
  match snd entry with
  | YStr s => s
  | _ => fst entry
  end.

(** The help text line 308-311 gives a parameter value: the string
    itself, or the string conversion of anything else. *)
Definition helpTextOf (v : yvalue) : Result string :=
  match v with
  | YStr s => Ok s
  | _ => toStringJs v
  end.

(** A text that is one line: it holds no line terminator. *)
Definition singleLine (lineText : string) : Prop :=
  Js.all (fun c => negb (Js.isLineTerminator c)) lineText = true.

(** The line without its comment, in the specification's words: what
    stands before the first occurrence of the two-character marker. *)
Definition withoutComment (lineText : string) : string :=
  match Js.indexOf "--" lineText with
  | Some i => Js.substr lineText 0 i
  | None => lineText
  end.

(** The result for a cursor beyond the line. *)
Definition absent : WordAtCursor := {| word := None; range := None |}.

(** A text with every carriage return that directly precedes a line
    feed left out: the text apart from how its line ends are written. *)
Fixpoint lfOnly (s : string) : string :=
  match s with
  | EmptyString => EmptyString
  | String a s' =>
      match s' with
      | String b _ =>
          if (Js.code a =? 13) && (Js.code b =? 10)
          then lfOnly s'
          else String a (lfOnly s')
      | EmptyString => String a EmptyString
      end
  end.

Definition fence (body : string) : string :=
  "~~~" +:+ LF +:+ body +:+ LF +:+ "~~~" +:+ LF.

Definition stringOf (v : yvalue) : option string :=
  match v with
  | YStr s => Some s
  | _ => None
  end.

(** The strings a descriptor gives under the names of one group, in the
    order of its properties. *)
Definition stringsUnder (names : list string) (props : list (string * yvalue))
  : list string :=
  omap (fun e => if isOneOf names (fst e) then stringOf (snd e) else None) props.

Definition isObject (v : yvalue) : bool :=
  match v with
  | YSeq _ | YMap _ => true
  | _ => false
  end.

(** The properties of a descriptor that set the parameters: a name of
    the parameters group with a mapping or a sequence as value. *)
Definition parameterSources (props : list (string * yvalue))
  : list (string * yvalue) :=
  filter (fun e => isOneOf ["parm"; "param"; "params"; "parameters"] (fst e)
                   && isObject (snd e) = true) props.

(** Two example strings in an array. *)
Definition examplesConfig : Config :=
  {| cfg_command := "play";
     cfg_formattedCommand := None;
     cfg_parameters := None;
     cfg_returns := None;
     cfg_help := None;
     cfg_examples :=
       Some (Many [Str ("play 60" +:+ LF +:+ " " +:+ LF);
                   Str ("play 70" +:+ CRLF +:+ "sleep 1  ")]) |}.

(** The twelve property names the parser knows. *)
Definition knownProperties : list string :=
  ["cmd"; "formattedCommand"; "return"; "returns"; "help"; "doc";
   "parm"; "param"; "params"; "parameters"; "example"; "examples"].

(** One name for each group of synonyms; other names stay. *)
Definition canonicalProperty (property : string) : string :=
  if isOneOf ["cmd"; "formattedCommand"] property then "cmd"
  else if isOneOf ["return"; "returns"] property then "returns"
  else if isOneOf ["help"; "doc"] property then "help"
  else if isOneOf ["parm"; "param"; "params"; "parameters"] property then "params"
  else if isOneOf ["example"; "examples"] property then "examples"
  else property.

(** Whether some line feed of [s] does not directly follow a carriage
    return; [afterCr] tells whether [s] itself follows one. *)
Fixpoint lonelyLf (afterCr : bool) (s : string) : bool :=
  match s with
  | EmptyString => false
  | String a s' =>
      ((Js.code a =? 10) && negb afterCr) || lonelyLf (Js.code a =? 13) s'
  end.

(** A signature given as strings, or not given. *)
Definition stringSignature (config : Config) : Prop :=
  match cfg_formattedCommand config with
  | None => True
  | Some (One (Str _)) => True
  | Some (One (Md _)) => False
  | Some (Many blocks) =>
      Forall (fun b => match b with Str _ => True | Md _ => False end) blocks
  end.

(** A registry as reloads leave it: every entry is stored under the name
    of its command and came out of the constructor. *)
Definition loaded (reg : gmap string SonicPiCommandDescription) : Prop :=
  map_Forall (fun k d => command d = k /\ constructed d) reg.

(** A definition source given to [init] directly. *)
Definition given (name : string) (tree : yvalue) : YamlInfo :=
  {| source := name; ydef := tree |}.

(** More sample inputs: a signature with a backtick, examples in an
    array, and a registry of three commands. *)
Definition tickConfig : Config :=
  {| cfg_command := "tick";
     cfg_formattedCommand := Some (Many [Str "tick `n`"; Str "    tick `x`"]);
     cfg_parameters := None;
     cfg_returns := Some (Str "a number");
     cfg_help := Some (Str "counts");
     cfg_examples := Some (Many [Str ("tick" +:+ LF +:+ "tick 2" +:+ LF +:+ LF)]) |}.

Definition threeRegistry : gmap string SonicPiCommandDescription :=
  <["play" := bareDescription "play"]>
    (<["play_pattern" := bareDescription "play_pattern"]>
       {["stop" := bareDescription "stop"]}).

Definition threeTree : yvalue :=
  YMap [("play", YMap [("cmd", YStr "play note"); ("doc", YStr "plays")]);
        ("play_pattern", YNull);
        ("stop", YNull)].

(** * Properties *)

(** ** Strings *)

Lemma append_cons (a : ascii) (s t : string) :
  String a s +:+ t = String a (s +:+ t).
Proof. reflexivity. Qed.

Lemma append_nil_l (t : string) : "" +:+ t = t.
Proof. reflexivity. Qed.

Lemma append_nil_r (s : string) : s +:+ "" = s.
Proof.
  induction s as [|a s IH]; [reflexivity |].
  now rewrite append_cons, IH.
Qed.

Lemma append_assoc (s t u : string) : (s +:+ t) +:+ u = s +:+ (t +:+ u).
Proof.
  induction s as [|a s IH]; [reflexivity |].
  now rewrite !append_cons, IH.
Qed.

Lemma prefix_cons (a b : ascii) (s t : string) :
  String.prefix (String a s) (String b t)
  = if ascii_dec a b then String.prefix s t else false.
Proof. reflexivity. Qed.

Lemma prefix_append (s t : string) : String.prefix s (s +:+ t) = true.
Proof.
  induction s as [|a s IH].
  - now destruct t.
  - rewrite append_cons, prefix_cons.
    destruct (ascii_dec a a); [exact IH | congruence].
Qed.

Lemma prefix_append_r (s t u : string) :
  String.prefix s t = true -> String.prefix s (t +:+ u) = true.
Proof.
  revert t; induction s as [|a s IH]; intros t H.
  - now destruct (t +:+ u).
  - destruct t as [|b t]; [discriminate |].
    rewrite append_cons, prefix_cons. rewrite prefix_cons in H.
    destruct (ascii_dec a b); [now apply IH | discriminate].
Qed.

(** ** The formatter *)

Lemma value_appendMarkdown (m : MarkdownString) (s : string) :
  value (appendMarkdown m s) = value m +:+ s.
Proof. reflexivity. Qed.

(** C5.  Detail levels are additive: for every description and every
    [withCommand] flag, [format] at OFF is absent, the three other levels
    give a text, the NO_EXAMPLES_NO_LINKS text has the MINIMUM text as a
    prefix and the FULL text has the NO_EXAMPLES_NO_LINKS text as a prefix. *)
Theorem format_levels_additive (d : SonicPiCommandDescription) (withCommand : bool) :
  format d OFF withCommand = None
  /\ exists m n f : string,
       formatted d MINIMUM withCommand = Some m
       /\ formatted d NO_EXAMPLES_NO_LINKS withCommand = Some n
       /\ formatted d FULL withCommand = Some f
       /\ (exists more, n = m +:+ more)
       /\ (exists more, f = n +:+ more)
       /\ String.prefix m n = true
       /\ String.prefix n f = true.
Proof.
  split; [reflexivity |].
  unfold formatted, format; cbn [option_map].
  eexists _, _, _.
  do 3 (split; [reflexivity |]).
  rewrite (value_appendMarkdown _ (examplesSection d)),
    (value_appendMarkdown _ (returnsSection d)),
    (value_appendMarkdown _ (parametersSection d)),
    (value_appendMarkdown _ (helpSection d _)).
  split; [eexists; rewrite !append_assoc; reflexivity |].
  split; [eexists; reflexivity |].
  split; [do 2 apply prefix_append_r |]; apply prefix_append.
Qed.

(** ** The shape of parsed descriptions *)

Lemma mapM_Forall {A B} (f : A -> Result B) (P : B -> Prop) :
  (forall a b, f a = Ok b -> P b) ->
  forall l bs, mapM f l = Ok bs -> Forall P bs.
Proof.
  intros Hf l; induction l as [|a l IH]; intros bs H; cbn in H.
  - injection H as <-. constructor.
  - destruct (f a) as [b|] eqn:Ea; [|discriminate]; cbn in H.
    destruct (mapM f l) as [bs'|] eqn:El; [|discriminate]; cbn in H.
    injection H as <-. constructor; eauto.
Qed.

Lemma foldM_invariant {A S} (f : S -> A -> Result S) (I : S -> Prop) :
  (forall s a s', I s -> f s a = Ok s' -> I s') ->
  forall l s s', I s -> foldM f s l = Ok s' -> I s'.
Proof.
  intros Hf l; induction l as [|a l IH]; intros s s' Hs H; cbn in H.
  - now injection H as <-.
  - destruct (f s a) as [s1|] eqn:Ea; [|discriminate]; cbn in H.
    eapply IH; [|exact H]. eauto.
Qed.

Lemma parseParameter_plain entry p :
  parseParameter entry = Ok p -> plainParm p.
Proof.
  destruct entry as [parmName parmprops]; unfold parseParameter.
  destruct (match parmprops with YStr s => Ok s | _ => toStringJs parmprops end)
    as [shown|]; cbn; [|discriminate].
  intros [= <-]. now split.
Qed.

Lemma parseProperty_plain st entry st' :
  plainLocals st -> parseProperty st entry = Ok st' -> plainLocals st'.
Proof.
  destruct entry as [property v]; unfold parseProperty; intros Hst.
  repeat match goal with
         | |- context [if ?b then _ else _] => destruct b
         end;
    try (destruct v; intros H; injection H as <-; exact Hst).
  destruct v; try (intros H; injection H as <-; exact Hst).
  all: match goal with
       | |- context [objectEntries ?v] =>
           destruct (objectEntries v) as [entries|]; cbn; [|discriminate]
       end;
    destruct (mapM parseParameter entries) as [parms|] eqn:Ep; cbn; [|discriminate];
    intros H; injection H as <-; unfold plainLocals; cbn;
    eapply mapM_Forall; [|exact Ep]; exact parseParameter_plain.
Qed.

Lemma initialLocals_plain : plainLocals initialLocals.
Proof. exact I. Qed.

Lemma parseEntry_shape entry d : parseEntry entry = Ok d -> parsedShape d.
Proof.
  destruct entry as [command v]; unfold parseEntry.
  assert (Hobj : forall w,
             (let* entries := objectEntries w in
              let* st := foldM parseProperty initialLocals entries in
              Ok (new_SonicPiCommandDescription (configOf command st))) = Ok d ->
             parsedShape d).
  { intros w.
    destruct (objectEntries w) as [entries|]; cbn; [|discriminate].
    destruct (foldM parseProperty initialLocals entries) as [st|] eqn:Ef;
      cbn; [|discriminate].
    intros [= <-]. exists command, st; split; [|reflexivity].
    eapply foldM_invariant;
      [exact parseProperty_plain | exact initialLocals_plain | exact Ef]. }
  destruct v as [| b | shown | s | items | props].
  - apply Hobj.
  - discriminate.
  - discriminate.
  - intros [= <-].
    eexists _, _; split; [exact initialLocals_plain | reflexivity].
  - apply Hobj.
  - apply Hobj.
Qed.

Lemma parseYamlDefinitions_shape ydef cmds :
  parseYamlDefinitions ydef = Ok cmds -> Forall parsedShape cmds.
Proof.
  unfold parseYamlDefinitions.
  destruct (objectEntries ydef) as [entries|]; cbn; [|discriminate].
  apply mapM_Forall. exact parseEntry_shape.
Qed.

Lemma parsedShape_parameters d :
  parsedShape d ->
  exists ps,
    parameters d = Some ps
    /\ Forall (fun p => Parm.editable p = Some false /\ Parm.type p = None) ps.
Proof.
  intros (command & st & Hst & ->); cbn.
  eexists; split; [reflexivity |].
  unfold plainLocals in Hst.
  destruct (l_parameters st) as [ps|]; [|constructor].
  induction Hst as [|p ps [He Ht] _ IH]; cbn; constructor; [|exact IH].
  cbn. now rewrite He, Ht.
Qed.

Lemma filter_editable_nil (ps : list SonicPiParameterDescription) :
  Forall (fun p => Parm.editable p = Some false /\ Parm.type p = None) ps ->
  filter (fun x => isEditable x = true) ps = [].
Proof.
  induction 1 as [|p ps [He _] _ IH]; [reflexivity |].
  rewrite filter_cons, IH. unfold isEditable. rewrite He.
  now destruct (decide (false = true)).
Qed.

(** ** The parser feeding the formatter *)

Lemma toStringJs_printable :
  forall v, printable v = true -> exists s, toStringJs v = Ok s.
Proof.
  fix IH 1. intros [| [] | shown | s | items | props] Hp; cbn in *;
    try (eexists; reflexivity).
  - assert (Hitems : exists strs,
               (fix items_to_strings (l : list yvalue) : Result (list string) :=
                  match l with
                  | [] => Ok []
                  | x :: l' =>
                      let* s := match x with
                                | YNull => Ok ""
                                | _ => toStringJs x
                                end in
                      let* ss := items_to_strings l' in
                      Ok (s :: ss)
                  end) items = Ok strs).
    { induction items as [|x items IHitems]; [eexists; reflexivity |].
      cbn in Hp. apply andb_true_iff in Hp as [Hx Hrest].
      destruct (IHitems Hrest) as [strs Hstrs].
      destruct (IH x Hx) as [sx Hsx].
      rewrite Hstrs.
      destruct x; rewrite ?Hsx; cbn; eexists; reflexivity. }
    destruct Hitems as [strs ->]. cbn. eexists; reflexivity.
  - destruct (hasOwn "toString" props); [discriminate | eexists; reflexivity].
Qed.

Lemma mapM_total {A B} (f : A -> Result B) (l : list A) :
  Forall (fun a => exists b, f a = Ok b) l -> exists bs, mapM f l = Ok bs.
Proof.
  induction 1 as [|a l [b Hb] _ [bs Hbs]]; cbn; [eexists; reflexivity |].
  rewrite Hb; cbn. rewrite Hbs; cbn. eexists; reflexivity.
Qed.

Lemma foldM_total {A S} (f : S -> A -> Result S) (l : list A) :
  Forall (fun a => forall s, exists s', f s a = Ok s') l ->
  forall s, exists s', foldM f s l = Ok s'.
Proof.
  induction 1 as [|a l Ha _ IH]; intros s; cbn; [eexists; reflexivity |].
  destruct (Ha s) as [s1 ->]; cbn. apply IH.
Qed.

Lemma parseParameter_total entry :
  printable (snd entry) = true -> exists p, parseParameter entry = Ok p.
Proof.
  destruct entry as [parmName parmprops]; cbn. intros Hp.
  destruct (toStringJs_printable parmprops Hp) as [shown Hshown].
  destruct parmprops; cbn in *; try rewrite Hshown; cbn; eexists; reflexivity.
Qed.

Lemma parseProperty_total entry :
  wellFormedProperty entry = true ->
  forall st, exists st', parseProperty st entry = Ok st'.
Proof.
  destruct entry as [property v]; unfold wellFormedProperty, parseProperty;
    cbn [fst snd]; intros Hwf st.
  destruct (isOneOf ["cmd"; "formattedCommand"] property);
    [destruct v; eexists; reflexivity |].
  destruct (isOneOf ["return"; "returns"] property);
    [destruct v; eexists; reflexivity |].
  destruct (isOneOf ["help"; "doc"] property);
    [destruct v; eexists; reflexivity |].
  destruct (isOneOf ["parm"; "param"; "params"; "parameters"] property).
  - assert (Hobj : forall w,
               forallb (fun kv => printable (snd kv)) (entriesOf w) = true ->
               objectEntries w = Ok (entriesOf w) ->
               exists st',
                 (let* entries := objectEntries w in
                  let* parms := mapM parseParameter entries in
                  Ok {| l_parameters := Some parms; l_examples := l_examples st;
                        l_formattedCommand := l_formattedCommand st;
                        l_help := l_help st; l_returns := l_returns st |})
                 = Ok st').
    { intros w Hall ->. cbn.
      destruct (mapM_total parseParameter (entriesOf w)) as [parms ->].
      - apply List.Forall_forall. intros e He. apply parseParameter_total.
        rewrite forallb_forall in Hall. now apply Hall.
      - cbn. eexists; reflexivity. }
    destruct v; try (eexists; reflexivity); apply Hobj; auto.
  - destruct (isOneOf ["example"; "examples"] property);
      [destruct v |]; eexists; reflexivity.
Qed.

Lemma parseEntry_total entry :
  wellFormedDescriptor (snd entry) = true -> exists d, parseEntry entry = Ok d.
Proof.
  destruct entry as [command v]; cbn [snd]; intros Hwf.
  assert (Hobj : forall w,
             forallb wellFormedProperty (entriesOf w) = true ->
             objectEntries w = Ok (entriesOf w) ->
             exists d,
               (let* entries := objectEntries w in
                let* st := foldM parseProperty initialLocals entries in
                Ok (new_SonicPiCommandDescription (configOf command st))) = Ok d).
  { intros w Hall ->. cbn.
    destruct (foldM_total parseProperty (entriesOf w)) with (s := initialLocals)
      as [st ->].
    - apply List.Forall_forall. intros e He. apply parseProperty_total.
      rewrite forallb_forall in Hall. now apply Hall.
    - cbn. eexists; reflexivity. }
  unfold parseEntry.
  destruct v; try discriminate; try (eexists; reflexivity); apply Hobj; auto.
Qed.

(** On a well-formed tree the parser returns, and FULL formatting of each
    description it returns gives a text. *)
Lemma parse_then_format_returns ydef :
  wellFormedTree ydef = true ->
  exists cmds,
    parseYamlDefinitions ydef = Ok cmds
    /\ Forall (fun d => exists text, format d FULL true = Some text) cmds.
Proof.
  destruct ydef; try discriminate. cbn [wellFormedTree]. intros Hwf.
  unfold parseYamlDefinitions; cbn.
  destruct (mapM_total parseEntry props) as [cmds ->].
  - apply List.Forall_forall. intros e He. apply parseEntry_total.
    rewrite forallb_forall in Hwf. now apply Hwf.
  - exists cmds. split; [reflexivity |].
    apply List.Forall_forall. intros d _. eexists; reflexivity.
Qed.

Lemma values_of_string_blocks (strs : list string) :
  map value (map trusted (map commandBlock (map Str strs)))
  = map indentCommand strs.
Proof. induction strs as [|x strs IH]; cbn; [reflexivity | now rewrite IH]. Qed.

(** The signature of a parsed command is never made up: its blocks are
    the supplied strings, indented. *)
Lemma parsed_signature_not_synthesized ydef cmds d :
  parseYamlDefinitions ydef = Ok cmds ->
  In d cmds ->
  exists supplied : list string, signatureTexts d = map indentCommand supplied.
Proof.
  intros Hparse Hin.
  pose proof (parseYamlDefinitions_shape _ _ Hparse) as Hall.
  rewrite List.Forall_forall in Hall.
  destruct (Hall d Hin) as (command & st & _ & ->).
  exists (l_formattedCommand st). apply values_of_string_blocks.
Qed.

(** No parsed command has examples. *)
Lemma parsed_examples_empty ydef cmds d :
  parseYamlDefinitions ydef = Ok cmds ->
  In d cmds ->
  examples d = Some [].
Proof.
  intros Hparse Hin.
  pose proof (parseYamlDefinitions_shape _ _ Hparse) as Hall.
  rewrite List.Forall_forall in Hall.
  now destruct (Hall d Hin) as (command & st & _ & ->).
Qed.

(** With nothing before them, the parameters still come after a
    separator. *)
Lemma format_separator_before_parameters d p ps withCommand :
  signatureSection d withCommand = "" ->
  help d = None ->
  parameters d = Some (p :: ps) ->
  exists rest,
    formatted d NO_EXAMPLES_NO_LINKS withCommand = Some (hline +:+ rest)
    /\ beginsWith hline (hline +:+ rest).
Proof.
  intros Hsig Hhelp Hps.
  unfold formatted, format; cbn [option_map].
  rewrite (value_appendMarkdown _ (returnsSection d)),
    (value_appendMarkdown _ (parametersSection d)),
    (value_appendMarkdown _ (helpSection d _)),
    (value_appendMarkdown _ (signatureSection d withCommand)).
  unfold helpSection, parametersSection. rewrite Hsig, Hhelp, Hps.
  cbn [value trusted newMarkdownString].
  rewrite !append_nil_l, append_assoc.
  eexists; split; [reflexivity | apply prefix_append].
Qed.

(** C1.  On the well-formed definition [play: {help: "plays a note"}]
    the parser succeeds and FULL formatting gives a text, but the
    description has no signature block at all: the text is the help prose
    alone, where the claim asks for the synthesized signature. *)
Theorem parsed_command_lacks_signature :
  wellFormedTree helpOnlyTree = true
  /\ exists d,
    parseYamlDefinitions helpOnlyTree = Ok [d]
    /\ signatureTexts d = []
    /\ signatureSection d true = ""
    /\ formatted d FULL true = Some "plays a note".
Proof. split; [reflexivity |]. eexists. repeat split; reflexivity. Qed.

(** C2.  On the definition [play: {cmd: "play note", example: "play 60"}]
    the parsed description has an empty examples sequence, and FULL
    formatting shows the signature alone: the example string is lost. *)
Theorem parsed_examples_are_lost :
  exists d,
    parseYamlDefinitions exampleTree = Ok [d]
    /\ examples d = Some []
    /\ formatted d FULL true = Some "    play note".
Proof. eexists. repeat split; reflexivity. Qed.

(** C3.  On the definition [play: {params: {note: "pitch"}}] the text of
    FULL formatting with the signature begins with the separator; so does
    the text of the same description without the signature. *)
Theorem format_leading_separator :
  exists d,
    parseYamlDefinitions paramsOnlyTree = Ok [d]
    /\ formatted d FULL true = Some (hline +:+ "`note`  pitch")
    /\ formatted d NO_EXAMPLES_NO_LINKS false = Some (hline +:+ "`note`  pitch")
    /\ beginsWith hline (hline +:+ "`note`  pitch").
Proof. eexists. repeat split; reflexivity. Qed.

(** ** Parsed parameters *)

(** C10.  Every parameter of every description the parser produces has
    [editable] false and no type; hence the completion item made for a
    parsed command inserts the bare command name, and each of its
    parameter lines is rendered without a type tag. *)
Theorem parsed_parameters_plain
    (ydef : yvalue) (cmds : list SonicPiCommandDescription)
    (d : SonicPiCommandDescription) :
  parseYamlDefinitions ydef = Ok cmds ->
  In d cmds ->
  exists ps,
    parameters d = Some ps
    /\ Forall (fun p => Parm.editable p = Some false /\ Parm.type p = None) ps
    /\ (forall range key,
          insertText (completionItem range key d) = Some (command d))
    /\ Forall (fun p => typeTag p = ""
                        /\ formatParameter p
                           = "`" +:+ Parm.name p +:+ "`  " +:+ value (Parm.help p)) ps.
Proof.
  intros Hparse Hin.
  pose proof (parseYamlDefinitions_shape _ _ Hparse) as Hall.
  rewrite List.Forall_forall in Hall.
  destruct (parsedShape_parameters d (Hall d Hin)) as (ps & Hps & Hplain).
  exists ps. split; [exact Hps |]. split; [exact Hplain |]. split.
  - intros range key. unfold completionItem. rewrite Hps. cbn.
    rewrite (filter_editable_nil ps Hplain). cbn.
    now rewrite append_nil_r.
  - eapply Forall_impl; [exact Hplain |].
    intros p [_ Ht]. unfold formatParameter, typeTag. rewrite Ht.
    split; reflexivity.
Qed.

Lemma parsed_parameters_plain_witness :
  exists ps,
    parameters paramsOnlyDescription = Some ps
    /\ Forall (fun p => Parm.editable p = Some false /\ Parm.type p = None) ps
    /\ (forall range key,
          insertText (completionItem range key paramsOnlyDescription)
          = Some (command paramsOnlyDescription))
    /\ Forall (fun p => typeTag p = ""
                        /\ formatParameter p
                           = "`" +:+ Parm.name p +:+ "`  " +:+ value (Parm.help p)) ps.
Proof.
  apply (parsed_parameters_plain paramsOnlyTree [paramsOnlyDescription]).
  - reflexivity.
  - left; reflexivity.
Defined.

(** ** The synthesized signature *)

Lemma map_name_defaultParameter (ps : list SonicPiParameterDescription) :
  map Parm.name (map defaultParameter ps) = map Parm.name ps.
Proof. induction ps as [|p ps IH]; cbn; [reflexivity | now rewrite IH]. Qed.

Lemma index_cons (pat : string) (b : ascii) (s : string) :
  String.index 0 pat (String b s)
  = if String.prefix pat (String b s) then Some 0
    else match String.index 0 pat s with
         | Some n => Some (S n)
         | None => None
         end.
Proof. reflexivity. Qed.

Lemma all_cons (p : ascii -> bool) (a : ascii) (s : string) :
  Js.all p (String a s) = p a && Js.all p s.
Proof. reflexivity. Qed.

Lemma indexOf_zero_prefix (pat s : string) :
  Js.indexOf pat s = Some 0 <-> Js.startsWith pat s = true.
Proof.
  unfold Js.indexOf, Js.startsWith. destruct s as [|b s].
  - destruct pat; cbn; split; congruence.
  - rewrite index_cons.
    destruct (String.prefix pat (String b s)); [tauto |].
    destruct (String.index 0 pat s); split; congruence.
Qed.

Lemma indexOf_backtick (s : string) :
  Js.indexOf "`" s = None <-> hasBacktick s = false.
Proof.
  unfold Js.indexOf, hasBacktick. rewrite negb_false_iff.
  induction s as [|b s IH]; [cbn; tauto |].
  rewrite index_cons, prefix_cons, all_cons.
  destruct (ascii_dec "`" b) as [<-|Hne].
  - replace (String.prefix "" s) with true by (now destruct s).
    cbn. split; congruence.
  - assert (Ascii.eqb b "`" = false) as -> by (apply Ascii.eqb_neq; congruence).
    cbn [negb andb]. rewrite <- IH.
    destruct (String.index 0 "`" s); split; congruence.
Qed.

Lemma indentCommand_cases (cmd : string) :
  indentCommand cmd
  = if hasBacktick cmd && Js.startsWith "    " cmd then cmd else "    " +:+ cmd.
Proof.
  unfold indentCommand.
  destruct (hasBacktick cmd) eqn:Hb.
  - rewrite bool_decide_eq_false_2
      by (rewrite indexOf_backtick; congruence).
    destruct (Js.startsWith "    " cmd) eqn:Hp; cbn.
    + now rewrite bool_decide_eq_true_2 by (now apply indexOf_zero_prefix).
    + rewrite bool_decide_eq_false_2; [reflexivity |].
      rewrite indexOf_zero_prefix; congruence.
  - rewrite bool_decide_eq_true_2 by (now apply indexOf_backtick).
    reflexivity.
Qed.

(** C4, as amended.  For every command constructed with no supplied
    signature, the stored signature is one block: the synthesized text
    indented by four spaces, where the synthesized text is the command,
    a space and the parameter names joined by single spaces in their order
    when a parameter list is given, and the command followed by [" ?"]
    when there is none.  The indentation is left out only for a text that
    holds a backtick and already begins with four spaces. *)
Theorem synthesized_signature (config : Config) :
  cfg_formattedCommand config = None ->
  let text :=
    match cfg_parameters config with
    | Some ps => cfg_command config +:+ " " +:+ Js.join " " (map Parm.name ps)
    | None => cfg_command config +:+ " ?"
    end in
  signatureTexts (new_SonicPiCommandDescription config)
  = [if hasBacktick text && Js.startsWith "    " text
     then text else "    " +:+ text]
  /\ (hasBacktick text = false ->
      signatureTexts (new_SonicPiCommandDescription config) = ["    " +:+ text]).
Proof.
  intros Hnone text.
  assert (Hsig : signatureTexts (new_SonicPiCommandDescription config)
                 = [indentCommand text]).
  { unfold signatureTexts, new_SonicPiCommandDescription; cbn.
    rewrite Hnone; cbn. f_equal. f_equal.
    unfold synthesizedCommand, text.
    destruct (cfg_parameters config) as [ps|]; [|reflexivity].
    now rewrite map_name_defaultParameter. }
  rewrite Hsig, indentCommand_cases. split; [reflexivity |].
  now intros ->.
Qed.

Lemma synthesized_signature_witness :
  cfg_formattedCommand playConfig = None
  /\ signatureTexts (new_SonicPiCommandDescription playConfig)
     = ["    play note amp"].
Proof.
  split; [reflexivity |].
  exact (proj1 (synthesized_signature playConfig eq_refl)).
Defined.

(** C4, as stated, fails: the signature stored for [play] with the
    parameters [note] and [amp] is not the bare synthesized text. *)
Lemma stored_signature_not_bare :
  cfg_formattedCommand playConfig = None
  /\ cfg_parameters playConfig = Some [noteParm; ampParm]
  /\ signatureTexts (new_SonicPiCommandDescription playConfig)
     <> ["play" +:+ " " +:+ Js.join " " (map Parm.name [noteParm; ampParm])].
Proof. repeat split. discriminate. Qed.

(** ** The word resolver *)

Lemma matchesLeft_class (a : ascii) :
  matchesLeft (Some a) = inClass identifierChars a.
Proof. destruct a as [[] [] [] [] [] [] [] []]; reflexivity. Qed.

Lemma matchesRight_class (a : ascii) :
  matchesRight (Some a) = inClass (identifierChars +:+ "'") a.
Proof. destruct a as [[] [] [] [] [] [] [] []]; reflexivity. Qed.

Lemma scanLeft_spec (line : string) (n : nat) :
  scanLeft line n <= n
  /\ (forall i, scanLeft line n <= i < n -> matchesLeft (Js.charAt line i) = true)
  /\ (scanLeft line n = 0
      \/ matchesLeft (Js.charAt line (scanLeft line n - 1)) = false).
Proof.
  induction n as [|i (Hle & Hall & Hstop)]; cbn [scanLeft].
  - split; [lia |]. split; [intros i Hi; lia | now left].
  - destruct (matchesLeft (Js.charAt line i)) eqn:Hm.
    + split; [lia |]. split; [| exact Hstop].
      intros j Hj. destruct (Nat.eq_dec j i) as [->|]; [exact Hm |].
      apply Hall; lia.
    + split; [lia |]. split; [intros j Hj; lia |].
      right. now replace (S i - 1) with i by lia.
Qed.

Lemma scanRight_spec (line : string) (steps : nat) :
  forall i,
    i <= String.length line ->
    String.length line - i < steps ->
    i <= scanRight line steps i <= String.length line
    /\ (forall j, i <= j < scanRight line steps i ->
                  matchesRight (Js.charAt line j) = true)
    /\ (scanRight line steps i = String.length line
        \/ matchesRight (Js.charAt line (scanRight line steps i)) = false).
Proof.
  induction steps as [|steps IH]; intros i Hi Hsteps; [lia |].
  cbn [scanRight].
  destruct (i <? String.length line) eqn:Hlt.
  - apply Nat.ltb_lt in Hlt.
    destruct (matchesRight (Js.charAt line i)) eqn:Hm.
    + destruct (IH (S i)) as (Hb & Hall & Hstop); [lia | lia |].
      split; [lia |]. split; [| exact Hstop].
      intros j Hj. destruct (Nat.eq_dec j i) as [->|]; [exact Hm |].
      apply Hall; lia.
    + split; [lia |]. split; [intros j Hj; lia | now right].
  - apply Nat.ltb_ge in Hlt.
    split; [lia |]. split; [intros j Hj; lia | left; lia].
Qed.

Lemma newRange_ordered (l s e : nat) : s <= e -> newRange l s l e = span l s e.
Proof.
  intros H. unfold newRange.
  rewrite Nat.ltb_irrefl, Nat.eqb_refl.
  now replace (e <? s) with false by (symmetry; apply Nat.ltb_ge; lia).
Qed.

Lemma substring_zero_length (n : nat) (s : string) : String.substring n 0 s = "".
Proof.
  revert n; induction s as [|a s IH]; intros [|n]; cbn; auto.
Qed.

Lemma stripTrailingSpace_empty (s : string) :
  Js.stripTrailingSpace s = "" <-> Js.all Js.isSpace s = true.
Proof.
  destruct s as [|a s]; [cbn; tauto |].
  cbn [Js.stripTrailingSpace].
  destruct (Js.all Js.isSpace (String a s)); split; congruence.
Qed.

(** What [/\s+$/] removes is white space, and what it leaves does not
    end in white space. *)
Lemma stripTrailingSpace_split (s : string) :
  exists ws,
    s = Js.stripTrailingSpace s +:+ ws
    /\ Js.all Js.isSpace ws = true
    /\ (forall a, Js.last (Js.stripTrailingSpace s) = Some a ->
                  Js.isSpace a = false).
Proof.
  induction s as [|a s (ws & Hs & Hws & Hlast)].
  - exists "". repeat split. discriminate.
  - cbn [Js.stripTrailingSpace].
    destruct (Js.all Js.isSpace (String a s)) eqn:Hall.
    + exists (String a s). repeat split; [exact Hall | discriminate].
    + exists ws. rewrite append_cons, <- Hs.
      split; [reflexivity |]. split; [exact Hws |].
      intros b Hb. cbn [Js.last] in Hb.
      destruct (Js.stripTrailingSpace s) as [|c t] eqn:Ht.
      * injection Hb as <-.
        apply stripTrailingSpace_empty in Ht.
        rewrite all_cons, Ht, andb_true_r in Hall. exact Hall.
      * now apply Hlast.
Qed.

(** What [/--.*$/] removes is nothing, or a text that begins with the
    comment marker. *)
Lemma stripComment_split (s : string) :
  exists rest,
    s = stripComment s +:+ rest
    /\ (rest = "" \/ (commentAt rest = true /\ beginsWith "--" rest)).
Proof.
  induction s as [|a s (rest & Hs & Hrest)].
  - exists "". split; [reflexivity | now left].
  - cbn [stripComment]. destruct (commentAt (String a s)) eqn:Hc.
    + exists (String a s). split; [reflexivity | right]. split; [exact Hc |].
      unfold commentAt in Hc. destruct s as [|b s]; [discriminate |].
      apply andb_true_iff in Hc as [Hc _]. apply andb_true_iff in Hc as [Ha Hb].
      apply Nat.eqb_eq in Ha, Hb.
      assert (a = "-"%char) as ->
        by (rewrite <- (ascii_nat_embedding a); unfold Js.code in Ha; now rewrite Ha).
      assert (b = "-"%char) as ->
        by (rewrite <- (ascii_nat_embedding b); unfold Js.code in Hb; now rewrite Hb).
      unfold beginsWith. now destruct s.
    + exists rest. rewrite append_cons, <- Hs. split; [reflexivity | exact Hrest].
Qed.

(** The trimmed line is the line text without a trailing comment and
    without the white space before it. *)
Lemma trimmedLine_split (lineText : string) :
  exists ws rest,
    lineText = (trimmedLine lineText +:+ ws) +:+ rest
    /\ Js.all Js.isSpace ws = true
    /\ (rest = "" \/ beginsWith "--" rest)
    /\ (forall a, Js.last (trimmedLine lineText) = Some a -> Js.isSpace a = false).
Proof.
  destruct (stripComment_split lineText) as (rest & Hs & Hrest).
  destruct (stripTrailingSpace_split (stripComment lineText))
    as (ws & Hw & Hws & Hlast).
  exists ws, rest. unfold trimmedLine. rewrite <- Hw, <- Hs.
  split; [reflexivity |]. split; [exact Hws |]. split; [| exact Hlast].
  destruct Hrest as [-> | [_ H]]; [now left | now right].
Qed.

Lemma matchesLeft_classAt (line : string) (i : nat) :
  matchesLeft (Js.charAt line i) = true <-> classAt identifierChars line i.
Proof.
  unfold classAt. destruct (Js.charAt line i) as [a|].
  - rewrite matchesLeft_class. split; [eauto |].
    now intros (b & [= <-] & H).
  - cbn. split; [discriminate | now intros (b & [=] & _)].
Qed.

Lemma matchesRight_classAt (line : string) (i : nat) :
  matchesRight (Js.charAt line i) = true
  <-> classAt (identifierChars +:+ "'") line i.
Proof.
  unfold classAt. destruct (Js.charAt line i) as [a|].
  - rewrite matchesRight_class. split; [eauto |].
    now intros (b & [= <-] & H).
  - cbn. split; [discriminate | now intros (b & [=] & _)].
Qed.

(** The bounds that the two scans find are determined by the runs of
    class characters around the cursor. *)
Lemma run_start_unique (P : nat -> Prop) (c s s' : nat) :
  s <= c -> (forall i, s <= i < c -> P i) -> (s = 0 \/ ~ P (s - 1)) ->
  s' <= c -> (forall i, s' <= i < c -> P i) -> (s' = 0 \/ ~ P (s' - 1)) ->
  s = s'.
Proof.
  intros Hs Hall Hstop Hs' Hall' Hstop'.
  destruct (Nat.lt_trichotomy s s') as [Hlt | [Heq | Hgt]]; [| exact Heq |].
  - destruct Hstop' as [H0 | Hno]; [lia |]. exfalso. apply Hno, Hall. lia.
  - destruct Hstop as [H0 | Hno]; [lia |]. exfalso. apply Hno, Hall'. lia.
Qed.

Lemma run_end_unique (P : nat -> Prop) (c len e e' : nat) :
  c <= e -> (forall i, c <= i < e -> P i) -> (e = len \/ ~ P e) -> e <= len ->
  c <= e' -> (forall i, c <= i < e' -> P i) -> (e' = len \/ ~ P e') -> e' <= len ->
  e = e'.
Proof.
  intros He Hall Hstop Hlen He' Hall' Hstop' Hlen'.
  destruct (Nat.lt_trichotomy e e') as [Hlt | [Heq | Hgt]]; [| exact Heq |].
  - destruct Hstop as [H0 | Hno]; [lia |]. exfalso. apply Hno, Hall'. lia.
  - destruct Hstop' as [H0 | Hno]; [lia |]. exfalso. apply Hno, Hall. lia.
Qed.

(** C6.  For an in-bounds cursor the resolver returns the substring
    between a start [s] and an end [e] with the span [[s, e)]: every
    character from [s] up to the cursor is in [[0-9a-zA-Z_]] and [s] is 0
    or follows a character outside it; every character from the cursor up
    to [e] is in [[0-9a-zA-Z_']] and [e] is the end of the line or the
    index of a character outside it.  On ["play 70 -- comment"] offset 4
    gives ["play"] with [[0,4)] and offset 7 gives ["70"] with [[5,7)]; on
    ["foo'bar"] the right scan from offset 3 runs over the apostrophe,
    the left scan from offset 4 stops at it. *)
Theorem word_resolver_scans :
  (forall (lineText : string) (position : Position),
      let line' := trimmedLine lineText in
      let c := character position in
      c <= String.length line' ->
      exists s e,
        getWordAtCursor lineText position
        = found (Js.substr line' s (e - s)) (span (line position) s e)
        /\ s <= c /\ c <= e /\ e <= String.length line'
        /\ (forall i, s <= i < c -> classAt identifierChars line' i)
        /\ (s = 0 \/ ~ classAt identifierChars line' (s - 1))
        /\ (forall i, c <= i < e -> classAt (identifierChars +:+ "'") line' i)
        /\ (e = String.length line'
            \/ ~ classAt (identifierChars +:+ "'") line' e))
  /\ getWordAtCursor "play 70 -- comment" (cursor 0 4) = found "play" (span 0 0 4)
  /\ getWordAtCursor "play 70 -- comment" (cursor 0 7) = found "70" (span 0 5 7)
  /\ getWordAtCursor "foo'bar" (cursor 0 3) = found "foo'bar" (span 0 0 7)
  /\ getWordAtCursor "foo'bar" (cursor 0 4) = found "bar" (span 0 4 7).
Proof.
  split; [| repeat split; reflexivity].
  intros lineText position line' c Hc.
  destruct (scanLeft_spec line' c) as (Hs & Hleft & Hstart).
  destruct (scanRight_spec line' (S (String.length line' - c)) c)
    as ((He1 & He2) & Hright & Hend); [exact Hc | lia |].
  exists (scanLeft line' c), (scanRight line' (S (String.length line' - c)) c).
  split.
  { unfold getWordAtCursor. fold line'. fold c.
    replace (String.length line' <? c) with false
      by (symmetry; apply Nat.ltb_ge; exact Hc).
    unfold found. rewrite newRange_ordered by lia. reflexivity. }
  split; [exact Hs |]. split; [exact He1 |]. split; [exact He2 |].
  split; [intros i Hi; now apply matchesLeft_classAt, Hleft |].
  split.
  { destruct Hstart as [H0 | Hno]; [now left | right].
    rewrite <- matchesLeft_classAt. now rewrite Hno. }
  split; [intros i Hi; now apply matchesRight_classAt, Hright |].
  destruct Hend as [Hlen | Hno]; [now left | right].
  rewrite <- matchesRight_classAt. now rewrite Hno.
Qed.

Lemma word_resolver_scans_witness :
  2 <= String.length (trimmedLine "play 70 -- comment")
  /\ exists s e,
      getWordAtCursor "play 70 -- comment" (cursor 0 2)
      = found (Js.substr "play 70" s (e - s)) (span 0 s e)
      /\ s <= 2 /\ 2 <= e /\ e <= 7
      /\ (forall i, s <= i < 2 -> classAt identifierChars "play 70" i)
      /\ (s = 0 \/ ~ classAt identifierChars "play 70" (s - 1))
      /\ (forall i, 2 <= i < e -> classAt (identifierChars +:+ "'") "play 70" i)
      /\ (e = 7 \/ ~ classAt (identifierChars +:+ "'") "play 70" e).
Proof.
  split; [vm_compute; lia |].
  apply (proj1 word_resolver_scans "play 70 -- comment" (cursor 0 2)).
  vm_compute; lia.
Defined.

Lemma code_dash_eqb (a : ascii) : (Js.code a =? 45) = Ascii.eqb a "-".
Proof. destruct a as [[] [] [] [] [] [] [] []]; reflexivity. Qed.

Lemma code_dash (a : ascii) : (Js.code a =? 45) = true <-> a = "-"%char.
Proof. rewrite code_dash_eqb. apply Ascii.eqb_eq. Qed.

Lemma append_eq_nil (pre post : string) : "" = pre +:+ post -> pre = "" /\ post = "".
Proof.
  destruct pre as [|a pre].
  - rewrite append_nil_l. now intros <-.
  - rewrite append_cons. discriminate.
Qed.

(** Where [/--.*$/] cuts: at a place where it matches, and no place
    where it matches comes earlier; nothing is cut only when it matches
    nowhere. *)
Lemma stripComment_first (s : string) :
  exists rest,
    s = stripComment s +:+ rest
    /\ (rest = "" \/ commentAt rest = true)
    /\ forall pre post,
         s = pre +:+ post -> commentAt post = true ->
         String.length (stripComment s) <= String.length pre /\ rest <> "".
Proof.
  induction s as [|a s (rest & Hs & Hrest & Hfirst)].
  - exists "". split; [reflexivity |]. split; [now left |].
    intros pre post H Hc. apply append_eq_nil in H as [-> ->]. discriminate.
  - cbn [stripComment]. destruct (commentAt (String a s)) eqn:Hc.
    + exists (String a s). split; [reflexivity |]. split; [now right |].
      intros pre post _ _. split; [cbn; lia | discriminate].
    + exists rest. rewrite append_cons, <- Hs. split; [reflexivity |].
      split; [exact Hrest |].
      intros [|b pre] post H Hpost.
      * rewrite append_nil_l in H. subst post. congruence.
      * rewrite append_cons in H. injection H as <- H.
        destruct (Hfirst pre post H Hpost) as [Hlen Hne].
        split; [cbn; lia | exact Hne].
Qed.

Lemma commentAt_singleLine (s : string) :
  singleLine s -> commentAt s = String.prefix "--" s.
Proof.
  unfold singleLine. intros Hs.
  destruct s as [|a [|b rest]]; [reflexivity | |].
  - rewrite prefix_cons. now destruct (ascii_dec "-" a).
  - rewrite !all_cons in Hs.
    apply andb_true_iff in Hs as [_ Hs]. apply andb_true_iff in Hs as [_ Hs].
    unfold commentAt. rewrite Hs, andb_true_r, !prefix_cons.
    replace (String.prefix "" rest) with true by (now destruct rest).
    destruct (ascii_dec "-" a) as [<- | Ha].
    + destruct (ascii_dec "-" b) as [<- | Hb]; [reflexivity |].
      cbn [andb Js.code]. destruct (Js.code b =? 45) eqn:E; [|reflexivity].
      apply code_dash in E. congruence.
    + destruct (Js.code a =? 45) eqn:E; [|reflexivity].
      apply code_dash in E. congruence.
Qed.

Lemma substring_cons (a : ascii) (s : string) (n : nat) :
  String.substring 0 (S n) (String a s) = String a (String.substring 0 n s).
Proof. reflexivity. Qed.

(** On one line, [/--.*$/] cuts at the first occurrence of the marker. *)
Lemma stripComment_withoutComment (s : string) :
  singleLine s -> stripComment s = withoutComment s.
Proof.
  unfold withoutComment, Js.indexOf, Js.substr.
  induction s as [|a s IH]; intros Hs; [reflexivity |].
  cbn [stripComment]. rewrite (commentAt_singleLine _ Hs), index_cons.
  destruct (String.prefix "--" (String a s)); [reflexivity |].
  assert (Hs' : singleLine s).
  { unfold singleLine in *. rewrite all_cons in Hs.
    now apply andb_true_iff in Hs as [_ Hs]. }
  rewrite (IH Hs').
  destruct (String.index 0 "--" s) as [n|]; [|reflexivity].
  now rewrite substring_cons.
Qed.

(** C9.  The resolver's result is absent, word and span alike, exactly
    when the cursor offset exceeds the length of the trimmed line.  An
    in-bounds cursor with no identifier character before it and none at
    it gives the empty word with the empty span at the cursor.  The
    trimmed line is the line text cut where the comment pattern first
    matches (nowhere, if it matches nowhere) and then freed of the white
    space at its end; on a text of one line the cut is at the first
    ["--"].  On ["play 70 -- comment"] the trimmed line has length 7:
    offset 7 resolves to ["70"], the offsets 8, 14 and 19 to nothing. *)
Theorem word_resolver_absent_iff (lineText : string) (position : Position) :
  let line' := trimmedLine lineText in
  let c := character position in
  let w := getWordAtCursor lineText position in
  (w = {| word := None; range := None |} <-> String.length line' < c)
  /\ (word w = None <-> String.length line' < c)
  /\ (range w = None <-> String.length line' < c)
  /\ (c <= String.length line' ->
      (c = 0 \/ ~ classAt identifierChars line' (c - 1)) ->
      ~ classAt (identifierChars +:+ "'") line' c ->
      w = found "" (span (line position) c c))
  /\ (exists ws rest,
        lineText = (line' +:+ ws) +:+ rest
        /\ Js.all Js.isSpace ws = true
        /\ (forall a, Js.last line' = Some a -> Js.isSpace a = false)
        /\ (rest = "" \/ commentAt rest = true)
        /\ (forall pre post,
              lineText = pre +:+ post -> commentAt post = true ->
              String.length (line' +:+ ws) <= String.length pre /\ rest <> ""))
  /\ (singleLine lineText ->
      exists ws,
        withoutComment lineText = line' +:+ ws
        /\ Js.all Js.isSpace ws = true
        /\ (forall a, Js.last line' = Some a -> Js.isSpace a = false))
  /\ trimmedLine "play 70 -- comment" = "play 70"
  /\ getWordAtCursor "play 70 -- comment" (cursor 0 7) = found "70" (span 0 5 7)
  /\ getWordAtCursor "play 70 -- comment" (cursor 0 8) = absent
  /\ getWordAtCursor "play 70 -- comment" (cursor 0 14) = absent
  /\ getWordAtCursor "play 70 -- comment" (cursor 0 19) = absent.
Proof.
  intros line' c w.
  assert (Hcore :
    (w = {| word := None; range := None |} <-> String.length line' < c)
    /\ (word w = None <-> String.length line' < c)
    /\ (range w = None <-> String.length line' < c)
    /\ (c <= String.length line' ->
        (c = 0 \/ ~ classAt identifierChars line' (c - 1)) ->
        ~ classAt (identifierChars +:+ "'") line' c ->
        w = found "" (span (line position) c c))).
  { unfold w, getWordAtCursor. fold line'. fold c.
    destruct (String.length line' <? c) eqn:Hlt.
    - apply Nat.ltb_lt in Hlt. cbn.
      repeat split; auto; intros; lia.
    - apply Nat.ltb_ge in Hlt. cbn [word range].
      split; [split; [discriminate | lia] |].
      split; [split; [discriminate | lia] |].
      split; [split; [discriminate | lia] |].
      intros _ Hleft Hright.
      assert (Hs : scanLeft line' c = c).
      { destruct c as [|i]; [reflexivity |]. cbn [scanLeft].
        destruct Hleft as [H0 | Hno]; [lia |].
        replace (S i - 1) with i in Hno by lia.
        destruct (matchesLeft (Js.charAt line' i)) eqn:Hm; [|reflexivity].
        now apply matchesLeft_classAt in Hm. }
      assert (He : scanRight line' (S (String.length line' - c)) c = c).
      { cbn [scanRight].
        destruct (matchesRight (Js.charAt line' c)) eqn:Hm.
        - now apply matchesRight_classAt in Hm.
        - now destruct (c <? String.length line'). }
      rewrite Hs, He, newRange_ordered by lia.
      unfold found, Js.substr. now rewrite Nat.sub_diag, substring_zero_length. }
  destruct Hcore as (H1 & H2 & H3 & H4).
  destruct (stripTrailingSpace_split (stripComment lineText))
    as (ws & Hw & Hws & Hlast).
  fold (trimmedLine lineText) in Hw, Hlast. fold line' in Hw, Hlast.
  split; [exact H1 |]. split; [exact H2 |]. split; [exact H3 |].
  split; [exact H4 |]. split.
  { destruct (stripComment_first lineText) as (rest & Hs & Hrest & Hfirst).
    exists ws, rest. rewrite <- Hw.
    split; [exact Hs |]. split; [exact Hws |]. split; [exact Hlast |].
    split; [exact Hrest | exact Hfirst]. }
  split.
  { intros Hone. exists ws.
    rewrite <- (stripComment_withoutComment lineText Hone).
    split; [exact Hw |]. split; [exact Hws | exact Hlast]. }
  repeat split; reflexivity.
Qed.

Lemma word_resolver_absent_iff_witness :
  trimmedLine "a + b  -- c" = "a + b"
  /\ singleLine "a + b  -- c"
  /\ getWordAtCursor "a + b  -- c" (cursor 0 2) = found "" (span 0 2 2)
  /\ getWordAtCursor "a + b  -- c" (cursor 0 6) = absent
  /\ exists ws,
      withoutComment "a + b  -- c" = "a + b" +:+ ws
      /\ Js.all Js.isSpace ws = true
      /\ (forall a, Js.last "a + b" = Some a -> Js.isSpace a = false).
Proof.
  destruct (word_resolver_absent_iff "a + b  -- c" (cursor 0 2))
    as (_ & _ & _ & Hempty & _ & Hline & _).
  destruct (word_resolver_absent_iff "a + b  -- c" (cursor 0 6))
    as (Habsent & _).
  split; [reflexivity |]. split; [reflexivity |]. split.
  { apply Hempty.
    - vm_compute; lia.
    - right. intros (a & Ha & Hin). vm_compute in Ha. injection Ha as <-.
      vm_compute in Hin. discriminate.
    - intros (a & Ha & Hin). vm_compute in Ha. injection Ha as <-.
      vm_compute in Hin. discriminate. }
  split.
  { apply Habsent. vm_compute; lia. }
  apply Hline. reflexivity.
Defined.

(** ** The registry *)

Lemma lastNamed_snoc k cmds x :
  lastNamed k (cmds ++ [x])
  = if decide (command x = k) then Some x else lastNamed k cmds.
Proof.
  unfold lastNamed. rewrite filter_app, filter_cons, filter_nil.
  destruct (decide (command x = k)).
  - apply last_snoc.
  - now rewrite app_nil_r.
Qed.

Lemma lastNamed_None k cmds :
  lastNamed k cmds = None <-> k ∉ map command cmds.
Proof.
  induction cmds as [|x cmds IH] using rev_ind.
  - cbn. split; [intros _; apply not_elem_of_nil | reflexivity].
  - rewrite lastNamed_snoc, map_app. cbn [map].
    rewrite elem_of_app, list_elem_of_singleton.
    destruct (decide (command x = k)).
    + split; [discriminate | intros []; now right].
    + rewrite IH. intuition congruence.
Qed.

Lemma commandDescriptions_after_sets
    (reg : gmap string SonicPiCommandDescription) cmds k :
  foldl (fun reg cmd => jsSet reg (command cmd) cmd) reg cmds !! k
  = if String.eqb k "__proto__" then reg !! k
    else match lastNamed k cmds with
         | Some d => Some d
         | None => reg !! k
         end.
Proof.
  induction cmds as [|x cmds IH] using rev_ind.
  - cbn. now destruct (String.eqb k "__proto__").
  - rewrite foldl_snoc, lastNamed_snoc. unfold jsSet at 1.
    destruct (String.eqb_spec (command x) "__proto__") as [Hx | Hx].
    + rewrite IH. destruct (String.eqb_spec k "__proto__") as [Hk | Hk];
        [reflexivity |].
      destruct (decide (command x = k)); [congruence | reflexivity].
    + rewrite lookup_insert. destruct (decide (command x = k)) as [<- | Hne].
      * now destruct (String.eqb_spec (command x) "__proto__").
      * exact IH.
Qed.

Lemma newKeys_lookup (keys : list string) k :
  foldl (fun x y => jsSet x y true) (∅ : gmap string bool) keys !! k
  = if bool_decide (k ∈ keys) && negb (String.eqb k "__proto__")
    then Some true else None.
Proof.
  induction keys as [|y keys IH] using rev_ind.
  - cbn. rewrite lookup_empty.
    now rewrite bool_decide_eq_false_2 by apply not_elem_of_nil.
  - rewrite foldl_snoc. unfold jsSet at 1.
    assert (Hmem : k ∈ keys ++ [y] <-> k ∈ keys \/ k = y)
      by (now rewrite elem_of_app, list_elem_of_singleton).
    destruct (String.eqb_spec y "__proto__") as [Hy | Hy].
    + rewrite IH. destruct (String.eqb_spec k "__proto__") as [Hk | Hk].
      * now rewrite !andb_false_r.
      * rewrite !andb_true_r.
        rewrite (bool_decide_ext (k ∈ keys ++ [y]) (k ∈ keys)); [reflexivity |].
        rewrite Hmem. intuition congruence.
    + rewrite lookup_insert. destruct (decide (y = k)) as [<- | Hne].
      * rewrite bool_decide_eq_true_2 by (apply Hmem; now right).
        now destruct (String.eqb_spec y "__proto__").
      * rewrite IH.
        rewrite (bool_decide_ext (k ∈ keys ++ [y]) (k ∈ keys)); [reflexivity |].
        rewrite Hmem. intuition congruence.
Qed.

Lemma inheritedFromObject_proto k :
  inheritedFromObject k = false -> String.eqb k "__proto__" = false.
Proof.
  destruct (String.eqb_spec k "__proto__") as [-> | ]; [discriminate | reflexivity].
Qed.

Section ProviderProperties.

Variable extensionPath : string.
Variable pathJoin : string -> string -> string.
Variable loadYaml : string -> option yvalue.

(** After a reload, a name that a plain object does not inherit is bound
    exactly when the parse pass yielded it, and then to the last
    description the pass gave for it. *)
Lemma init_lookup_own arg (reg : gmap string SonicPiCommandDescription) k :
  inheritedFromObject k = false ->
  init extensionPath pathJoin loadYaml arg reg !! k
  = lastNamed k (parsedCommands (combinedDefinitions extensionPath pathJoin loadYaml arg)).
Proof.
  intros Hown. pose proof (inheritedFromObject_proto k Hown) as Hproto.
  unfold init.
  set (cmds := parsedCommands (combinedDefinitions extensionPath pathJoin loadYaml arg)).
  apply option_eq; intros d.
  rewrite map_lookup_filter_Some, commandDescriptions_after_sets, Hproto.
  cbn [fst]. unfold typeofUndefined. rewrite Hown, andb_true_r.
  rewrite newKeys_lookup, Hproto, andb_true_r.
  destruct (lastNamed k cmds) as [d'|] eqn:Hlast.
  - assert (k ∈ map command cmds) as Hin.
    { destruct (decide (k ∈ map command cmds)) as [|Hn]; [assumption |].
      apply lastNamed_None in Hn. congruence. }
    rewrite (bool_decide_eq_true_2 _ Hin).
    rewrite bool_decide_eq_false_2 by discriminate. tauto.
  - apply lastNamed_None in Hlast.
    rewrite (bool_decide_eq_false_2 _ Hlast).
    rewrite bool_decide_eq_true_2 by reflexivity.
    split; [intros [_ [=]] | discriminate].
Qed.

Lemma parsedShape_constructed d : parsedShape d -> constructed d.
Proof. intros (command & st & _ & ->). now eexists. Qed.

Lemma parsedCommands_constructed defs :
  Forall constructed (parsedCommands defs).
Proof.
  unfold parsedCommands.
  assert (H : forall (ls : list (list SonicPiCommandDescription)) acc,
             Forall constructed acc -> Forall (Forall constructed) ls ->
             Forall constructed (foldl (fun x y => x ++ y) acc ls)).
  { induction ls as [|l ls IH]; intros acc Hacc Hls; [exact Hacc |].
    inversion Hls; subst. cbn. apply IH; [|assumption].
    apply Forall_app; now split. }
  apply H; [constructor |].
  induction defs as [|d defs IH]; cbn; constructor; [|exact IH].
  destruct (parseYamlDefinitions (ydef d)) as [cmds|] eqn:Hp; [|constructor].
  eapply Forall_impl; [exact (parseYamlDefinitions_shape _ _ Hp) |].
  exact parsedShape_constructed.
Qed.

(** A reload keeps the registry made of constructed descriptions. *)
Lemma init_constructed arg (reg : gmap string SonicPiCommandDescription) :
  map_Forall (fun _ d => constructed d) reg ->
  map_Forall (fun _ d => constructed d) (init extensionPath pathJoin loadYaml arg reg).
Proof.
  intros Hreg k d. unfold init.
  rewrite map_lookup_filter_Some, commandDescriptions_after_sets.
  intros [Hk _]. revert Hk.
  set (cmds := parsedCommands (combinedDefinitions extensionPath pathJoin loadYaml arg)).
  destruct (String.eqb k "__proto__"); [apply Hreg |].
  destruct (lastNamed k cmds) as [d'|] eqn:Hlast; [|apply Hreg].
  intros [= <-]. unfold lastNamed in Hlast.
  apply last_Some_elem_of, list_elem_of_filter in Hlast as [_ Hin].
  pose proof (parsedCommands_constructed (combinedDefinitions extensionPath pathJoin loadYaml arg)) as Hall.
  rewrite Forall_forall in Hall. now apply Hall.
Qed.

(** C7.  A reload whose parse pass yields only [a] leaves ["constructor"]
    bound when the registry held it before: the pruning test reads the
    index of new names through its prototype, where ["constructor"] is
    always found.  For a name that is not inherited the reload does what
    the claim says: from [{a, b}] the reload to [{a}] deletes [b] and
    rebinds [a]. *)
Theorem reload_keeps_inherited_name :
  let reload tree reg :=
    init extensionPath pathJoin loadYaml
      (Some [{| source := "synth.yaml"; ydef := tree |}]) reg in
  parsedCommands [{| source := "synth.yaml"; ydef := aTree |}]
  = [bareDescription "a"]
  /\ reload aTree (reload inheritedNameTree ∅) !! "constructor"
     = Some (bareDescription "constructor")
  /\ reload aTree (reload abTree ∅) !! "b" = None
  /\ reload aTree (reload abTree ∅) !! "a" = Some (bareDescription "a").
Proof. cbv zeta. repeat split; vm_compute; reflexivity. Qed.

End ProviderProperties.

(** ** Completion *)

Lemma constructed_parameters d : constructed d -> is_Some (parameters d).
Proof. intros [config ->]. now eexists. Qed.

Lemma filter_isEditable (ps : list SonicPiParameterDescription) :
  filter (fun x => isEditable x = true) ps
  = filter (fun p => Parm.editable p = Some true) ps.
Proof.
  apply list_filter_iff. intros p. unfold isEditable.
  destruct (Parm.editable p) as [[]|]; split; congruence.
Qed.

(** C8.  Every completion item produced for a resolved prefix is made
    from a registry entry whose key starts with the prefix, and its
    insertion text is the command name followed by the names, joined by
    single spaces, of exactly those parameters of the command whose
    [editable] flag is true; a parameter that is not editable is not among
    the inserted ones. *)
Theorem completion_insert_text
    (reg : gmap string SonicPiCommandDescription)
    (lineText : string) (position : Position)
    (items : list CompletionItem) (item : CompletionItem) :
  map_Forall (fun _ d => constructed d) reg ->
  provideCompletionItems reg lineText position = Some items ->
  In item items ->
  exists prefix cdesc ps,
    word (getWordAtCursor lineText position) = Some prefix
    /\ Js.startsWith prefix (label item) = true
    /\ reg !! label item = Some cdesc
    /\ parameters cdesc = Some ps
    /\ insertText item
       = Some (command cdesc
               +:+ Js.join " "
                     (map Parm.name
                        (filter (fun p => Parm.editable p = Some true) ps)))
    /\ (forall p, In p ps -> Parm.editable p <> Some true ->
                  ~ In p (filter (fun p => Parm.editable p = Some true) ps)).
Proof.
  intros Hreg Hitems Hin. unfold provideCompletionItems in Hitems.
  destruct (word (getWordAtCursor lineText position)) as [prefix|] eqn:Hw;
    [|discriminate].
  destruct (range (getWordAtCursor lineText position)) as [r|]; [|discriminate].
  injection Hitems as <-.
  apply in_map_iff in Hin as ([key cdesc] & <- & Hkv).
  apply list_elem_of_In, list_elem_of_filter in Hkv as [Hstarts Hkv].
  apply elem_of_map_to_list in Hkv. cbn [fst snd] in *.
  destruct (constructed_parameters cdesc (Hreg key cdesc Hkv)) as [ps Hps].
  exists prefix, cdesc, ps.
  unfold completionItem. rewrite Hps. cbn [label insertText].
  rewrite filter_isEditable.
  repeat (split; [first [reflexivity | assumption] |]).
  intros p _ Hno Hp.
  apply list_elem_of_In, list_elem_of_filter in Hp as [He _]. contradiction.
Qed.

Lemma completion_insert_text_witness :
  provideCompletionItems playRegistry "pl" (cursor 0 2) = Some [playItem]
  /\ exists prefix cdesc ps,
      word (getWordAtCursor "pl" (cursor 0 2)) = Some prefix
      /\ Js.startsWith prefix (label playItem) = true
      /\ playRegistry !! label playItem = Some cdesc
      /\ parameters cdesc = Some ps
      /\ insertText playItem
         = Some (command cdesc
                 +:+ Js.join " "
                       (map Parm.name
                          (filter (fun p => Parm.editable p = Some true) ps)))
      /\ (forall p, In p ps -> Parm.editable p <> Some true ->
                    ~ In p (filter (fun p => Parm.editable p = Some true) ps)).
Proof.
  split; [vm_compute; reflexivity |].
  apply (completion_insert_text playRegistry "pl" (cursor 0 2) [playItem] playItem).
  - intros k d Hk. unfold playRegistry in Hk.
    apply lookup_singleton_Some in Hk as [_ <-]. now eexists.
  - vm_compute; reflexivity.
  - left; reflexivity.
Defined.

(** * Further properties *)

(** ** The constructor *)

Lemma Forall_map_trusted (l : list MarkdownString) :
  Forall (fun m => isTrusted m = true) (map trusted l).
Proof. induction l; cbn; constructor; auto. Qed.

(** X1.  Every text of a constructed description is marked trusted: the
    signature blocks, the help of each parameter, the returns and help
    texts when present, and the examples; and so is every text that
    [format] gives. *)
Theorem constructor_marks_trusted (config : Config) :
  let d := new_SonicPiCommandDescription config in
  Forall (fun m => isTrusted m = true) (formattedCommand d)
  /\ (exists ps, parameters d = Some ps
                 /\ Forall (fun p => isTrusted (Parm.help p) = true) ps)
  /\ (exists es, examples d = Some es
                 /\ Forall (fun m => isTrusted m = true) es)
  /\ match returns d with
     | Some r => isTrusted r = true
     | None => cfg_returns config = None
     end
  /\ match help d with
     | Some h => isTrusted h = true
     | None => cfg_help config = None
     end
  /\ forall level flag,
       match format d level flag with
       | Some ms => isTrusted ms = true
       | None => level = OFF
       end.
Proof.
  cbv zeta. split; [apply Forall_map_trusted |].
  split.
  { eexists; split; [reflexivity |].
    destruct (cfg_parameters config) as [ps|]; [|constructor].
    induction ps; cbn; constructor; auto. }
  split; [eexists; split; [reflexivity | apply Forall_map_trusted] |].
  split; [cbn; now destruct (cfg_returns config) |].
  split; [cbn; now destruct (cfg_help config) |].
  intros [] flag; reflexivity.
Qed.

(** X2.  The constructor never leaves the parameters or the examples
    absent; it keeps the names, types and help texts of the given
    parameters in their order, and gives each an [editable] flag: the
    given one, or false. *)
Theorem constructor_parameters (config : Config) :
  let d := new_SonicPiCommandDescription config in
  let supplied :=
    match cfg_parameters config with
    | Some ps => ps
    | None => []
    end in
  exists ps es,
    parameters d = Some ps
    /\ examples d = Some es
    /\ map Parm.name ps = map Parm.name supplied
    /\ map Parm.type ps = map Parm.type supplied
    /\ map (fun p => value (Parm.help p)) ps
       = map (fun p => value (Parm.help p)) supplied
    /\ map Parm.editable ps
       = map (fun p => Some (match Parm.editable p with
                             | Some b => b
                             | None => false
                             end)) supplied.
Proof.
  cbv zeta. eexists _, _. split; [reflexivity |]. split; [reflexivity |].
  destruct (cfg_parameters config) as [ps|]; [|repeat split].
  cbn [parameters].
  repeat split; rewrite !List.map_map; apply List.map_ext; reflexivity.
Qed.

Lemma startsWith_indentCommand (cmd : string) :
  Js.startsWith "    " (indentCommand cmd) = true.
Proof.
  rewrite indentCommand_cases.
  destruct (hasBacktick cmd && Js.startsWith "    " cmd) eqn:H.
  - now apply andb_true_iff in H.
  - apply prefix_append.
Qed.

(** X3.  When the signature is not given, or given as strings, every
    stored signature block begins with four spaces. *)
Theorem string_signatures_indented (config : Config) :
  stringSignature config ->
  Forall (beginsWith "    ") (signatureTexts (new_SonicPiCommandDescription config)).
Proof.
  unfold stringSignature, signatureTexts, new_SonicPiCommandDescription.
  cbn [formattedCommand].
  destruct (cfg_formattedCommand config) as [[[s|m]|blocks]|]; intros H.
  - repeat constructor. apply startsWith_indentCommand.
  - destruct H.
  - induction H as [|[s|m] blocks Hb _ IH]; cbn; constructor;
      [apply startsWith_indentCommand | exact IH | destruct Hb | exact IH].
  - repeat constructor. apply startsWith_indentCommand.
Qed.

Lemma string_signatures_indented_witness :
  stringSignature tickConfig
  /\ signatureTexts (new_SonicPiCommandDescription tickConfig)
     = ["    tick `n`"; "    tick `x`"]
  /\ Forall (beginsWith "    ")
       (signatureTexts (new_SonicPiCommandDescription tickConfig)).
Proof.
  split; [repeat constructor |]. split; [reflexivity |].
  apply (string_signatures_indented tickConfig). repeat constructor.
Defined.

(** ** Example texts *)

Lemma string_pair_ind (P : string -> Prop) :
  P "" ->
  (forall a, P (String a "")) ->
  (forall a b s, P s -> P (String b s) -> P (String a (String b s))) ->
  forall s, P s.
Proof.
  intros H0 H1 H2 s.
  enough (P s /\ forall a, P (String a s)) by tauto.
  induction s as [|b s [IHs IHc]]; [split; [exact H0 | exact H1] |].
  split; [apply IHc |]. intros a. apply H2; [exact IHs | apply IHc].
Qed.

Lemma code_eq (a : ascii) (n : nat) :
  n < 256 -> (Js.code a =? n) = true -> a = ascii_of_nat n.
Proof.
  intros _ H. apply Nat.eqb_eq in H. unfold Js.code in H.
  now rewrite <- H, ascii_nat_embedding.
Qed.

Lemma crlf_lf (a : ascii) (s : string) :
  (Js.code a =? 10) = true ->
  Js.crlf (String a s) = String "013" (String "010" (Js.crlf s)).
Proof. intros H. cbn [Js.crlf]. now rewrite H. Qed.

Lemma crlf_cr_lf (a b : ascii) (s : string) :
  (Js.code a =? 13) = true -> (Js.code b =? 10) = true ->
  Js.crlf (String a (String b s)) = String "013" (String "010" (Js.crlf s)).
Proof.
  intros Ha Hb. cbn [Js.crlf]. rewrite Ha, Hb.
  replace (Js.code a =? 10) with false; [reflexivity |].
  apply Nat.eqb_eq in Ha. symmetry. apply Nat.eqb_neq. lia.
Qed.

Lemma crlf_other (a : ascii) (t : string) :
  (Js.code a =? 10) = false ->
  match t with
  | String c _ => (Js.code a =? 13) && (Js.code c =? 10) = false
  | EmptyString => True
  end ->
  Js.crlf (String a t) = String a (Js.crlf t).
Proof.
  intros Ha Ht. cbn [Js.crlf]. rewrite Ha.
  destruct t as [|c t]; [reflexivity |]. now rewrite Ht.
Qed.

(** The three shapes [crlf] tells apart at the head of a text. *)
Lemma crlf_head (a : ascii) (t : string) :
  ((Js.code a =? 10) = true
   /\ Js.crlf (String a t) = String "013" (String "010" (Js.crlf t)))
  \/ (exists b t', t = String b t'
                   /\ (Js.code a =? 13) = true /\ (Js.code b =? 10) = true
                   /\ Js.crlf (String a t)
                      = String "013" (String "010" (Js.crlf t')))
  \/ ((Js.code a =? 10) = false
      /\ match t with
         | String c _ => (Js.code a =? 13) && (Js.code c =? 10) = false
         | EmptyString => True
         end
      /\ Js.crlf (String a t) = String a (Js.crlf t)).
Proof.
  destruct (Js.code a =? 10) eqn:Ha.
  - left. split; [reflexivity | now apply crlf_lf].
  - destruct t as [|b t'].
    + right; right. repeat split. now apply crlf_other.
    + destruct ((Js.code a =? 13) && (Js.code b =? 10)) eqn:Hab.
      * apply andb_true_iff in Hab as [H13 H10].
        right; left. exists b, t'. repeat split; auto. now apply crlf_cr_lf.
      * right; right. repeat split; auto. now apply crlf_other.
Qed.

Lemma crlf_not_lf_first (s : string) :
  match Js.crlf s with
  | String c _ => (Js.code c =? 10) = false
  | EmptyString => True
  end.
Proof.
  destruct s as [|a t]; [exact I |].
  destruct (crlf_head a t) as [[_ ->] | [(b & t' & _ & _ & _ & ->) | (Ha & _ & ->)]];
    auto.
Qed.

Lemma crlf_idempotent (s : string) : Js.crlf (Js.crlf s) = Js.crlf s.
Proof.
  induction s as [| a | a b s IHs IHb] using string_pair_ind.
  - reflexivity.
  - destruct (crlf_head a "") as [[_ ->] | [(b & t' & [=] & _) | (Ha & _ & ->)]].
    + reflexivity.
    + now apply crlf_other.
  - destruct (crlf_head a (String b s))
      as [[_ ->] | [(b' & t' & [= <- <-] & _ & _ & ->) | (Ha & Hab & ->)]].
    + rewrite crlf_cr_lf by reflexivity. now rewrite IHb.
    + rewrite crlf_cr_lf by reflexivity. now rewrite IHs.
    + rewrite crlf_other; [now rewrite IHb | exact Ha |].
      pose proof (crlf_not_lf_first (String b s)) as Hfirst.
      destruct (Js.crlf (String b s)) as [|c t]; [exact I |].
      rewrite Hfirst. apply andb_false_r.
Qed.

Lemma crlf_no_lonelyLf (s : string) :
  forall afterCr, lonelyLf afterCr (Js.crlf s) = false.
Proof.
  induction s as [| a | a b s IHs IHb] using string_pair_ind; intros afterCr.
  - reflexivity.
  - destruct (crlf_head a "") as [[_ ->] | [(b & t' & [=] & _) | (Ha & _ & ->)]].
    + reflexivity.
    + cbn. rewrite Ha. reflexivity.
  - destruct (crlf_head a (String b s))
      as [[_ ->] | [(b' & t' & [= <- <-] & _ & _ & ->) | (Ha & Hab & ->)]].
    + cbn [lonelyLf]. cbn -[Js.crlf lonelyLf]. apply IHb.
    + cbn [lonelyLf]. cbn -[Js.crlf lonelyLf]. apply IHs.
    + cbn [lonelyLf]. rewrite Ha. cbn [andb orb]. apply IHb.
Qed.

Lemma js_last_cons (a b : ascii) (s : string) :
  Js.last (String a (String b s)) = Js.last (String b s).
Proof. reflexivity. Qed.

Lemma last_crlf (s : string) : Js.last (Js.crlf s) = Js.last s.
Proof.
  induction s as [| a | a b s IHs IHb] using string_pair_ind.
  - reflexivity.
  - destruct (crlf_head a "") as [[Ha ->] | [(b & t' & [=] & _) | (Ha & _ & ->)]].
    + now rewrite (code_eq a 10) by (lia || exact Ha).
    + reflexivity.
  - destruct (crlf_head a (String b s))
      as [[Ha ->] | [(b' & t' & [= <- <-] & H13 & H10 & ->) | (Ha & Hab & ->)]].
    + rewrite !js_last_cons, <- IHb.
      destruct (Js.crlf (String b s)) as [|c t] eqn:Hc; [|reflexivity].
      destruct (crlf_head b s)
        as [[_ H] | [(b' & t' & _ & _ & _ & H) | (_ & _ & H)]];
        rewrite H in Hc; discriminate.
    + destruct s as [|c s].
      * now rewrite (code_eq b 10) by (lia || exact H10).
      * rewrite !js_last_cons, <- IHs.
        destruct (Js.crlf (String c s)) as [|c' t] eqn:Hc; [|reflexivity].
        destruct (crlf_head c s)
          as [[_ H] | [(b' & t' & _ & _ & _ & H) | (_ & _ & H)]];
          rewrite H in Hc; discriminate.
    + rewrite js_last_cons, <- IHb.
      destruct (Js.crlf (String b s)) as [|c t] eqn:Hc; [|reflexivity].
      destruct (crlf_head b s)
        as [[_ H] | [(b' & t' & _ & _ & _ & H) | (_ & _ & H)]];
        rewrite H in Hc; discriminate.
Qed.

(** X4.  Normalising line ends is idempotent, and in a normalised text
    every line feed directly follows a carriage return. *)
Theorem crlf_normal_form (s : string) :
  Js.crlf (Js.crlf s) = Js.crlf s
  /\ lonelyLf false (Js.crlf s) = false.
Proof. split; [apply crlf_idempotent | apply crlf_no_lonelyLf]. Qed.

Lemma stripTrailingBlankLines_last (x : string) (a : ascii) :
  Js.last (stripTrailingBlankLines x) = Some a -> (Js.code a =? 10) = false.
Proof.
  unfold stripTrailingBlankLines.
  destruct (Js.last x) as [a0|] eqn:Hlast.
  - destruct (Js.code a0 =? 10) eqn:H10.
    + intros H.
      destruct (stripTrailingSpace_split x) as (_ & _ & _ & Hns).
      specialize (Hns a H). unfold Js.isSpace in Hns.
      destruct (Js.code a =? 10) eqn:Ha; [|reflexivity].
      apply Nat.eqb_eq in Ha. rewrite Ha in Hns. discriminate.
    + rewrite Hlast. now intros [= <-].
  - rewrite Hlast. discriminate.
Qed.

Lemma lfOnly_cons (a : ascii) (t : string) :
  match t with
  | String c _ => (Js.code a =? 13) && (Js.code c =? 10) = false
  | EmptyString => True
  end ->
  lfOnly (String a t) = String a (lfOnly t).
Proof.
  intros Ht. cbn [lfOnly]. destruct t as [|c t]; [reflexivity |]. now rewrite Ht.
Qed.

Lemma lfOnly_cr_lf (a b : ascii) (t : string) :
  (Js.code a =? 13) = true -> (Js.code b =? 10) = true ->
  lfOnly (String a (String b t)) = String b (lfOnly t).
Proof.
  intros Ha Hb. cbn [lfOnly]. rewrite Ha, Hb. cbn [andb].
  apply Nat.eqb_eq in Hb.
  destruct t as [|c t]; [reflexivity |].
  replace (Js.code b =? 13) with false; [reflexivity |].
  symmetry. apply Nat.eqb_neq. lia.
Qed.

(** Normalising the line ends changes nothing else of a text. *)
Lemma lfOnly_crlf (s : string) : lfOnly (Js.crlf s) = lfOnly s.
Proof.
  induction s as [| a | a b s IHs IHb] using string_pair_ind.
  - reflexivity.
  - destruct (crlf_head a "") as [[Ha ->] | [(b & t' & [=] & _) | (Ha & _ & ->)]].
    + now rewrite (code_eq a 10) by (lia || exact Ha).
    + reflexivity.
  - destruct (crlf_head a (String b s))
      as [[Ha ->] | [(b' & t' & [= <- <-] & H13 & H10 & ->) | (Ha & Hab & ->)]].
    + rewrite lfOnly_cr_lf by reflexivity. rewrite IHb.
      rewrite (code_eq a 10) by (lia || exact Ha).
      symmetry. apply lfOnly_cons. cbn. reflexivity.
    + rewrite !lfOnly_cr_lf by (reflexivity || assumption).
      now rewrite IHs, (code_eq b 10) by (lia || exact H10).
    + rewrite (lfOnly_cons a (String b s)) by exact Hab.
      rewrite lfOnly_cons; [now rewrite IHb |].
      pose proof (crlf_not_lf_first (String b s)) as Hfirst.
      destruct (Js.crlf (String b s)) as [|c t]; [exact I |].
      rewrite Hfirst. apply andb_false_r.
Qed.

(** What the first replacement of line 124 removes: nothing unless the
    text ends in a line feed, and then all the white space at its end. *)
Lemma stripTrailingBlankLines_split (x : string) :
  exists ws,
    x = stripTrailingBlankLines x +:+ ws
    /\ Js.all Js.isSpace ws = true
    /\ (ws = ""
        \/ (Js.last x = Some "010"%char
            /\ forall a, Js.last (stripTrailingBlankLines x) = Some a ->
                         Js.isSpace a = false)).
Proof.
  unfold stripTrailingBlankLines.
  destruct (Js.last x) as [a0|] eqn:Hlast.
  - destruct (Js.code a0 =? 10) eqn:H10.
    + destruct (stripTrailingSpace_split x) as (ws & Hx & Hws & Hns).
      exists ws. split; [exact Hx |]. split; [exact Hws |]. right.
      split; [|exact Hns]. now rewrite (code_eq a0 10) by (lia || exact H10).
    + exists "". rewrite append_nil_r. repeat split. now left.
  - exists "". rewrite append_nil_r. repeat split. now left.
Qed.

(** X5.  The example strings of an array are stored one block each, in
    the order given, each as a fenced block.  The body of a block is the
    example with its line ends normalised (every line feed follows a
    carriage return, and apart from the line ends the text is the kept
    part of the example) and it does not end in a line feed; the kept
    part is the whole example, or, for an example that ends in a line
    feed, the example without the white space at its end. *)
Theorem example_blocks_fenced (config : Config) (given : list string) :
  cfg_examples config = Some (Many (map Str given)) ->
  exists bodies,
    option_map (map value) (examples (new_SonicPiCommandDescription config))
    = Some (map fence bodies)
    /\ Forall2
         (fun x body =>
            lonelyLf false body = false
            /\ (forall a, Js.last body = Some a -> (Js.code a =? 10) = false)
            /\ exists kept ws,
                x = kept +:+ ws
                /\ Js.all Js.isSpace ws = true
                /\ lfOnly body = lfOnly kept
                /\ (ws = ""
                    \/ (Js.last x = Some "010"%char
                        /\ forall a, Js.last kept = Some a -> Js.isSpace a = false)))
         given bodies.
Proof.
  intros Hex.
  exists (map (fun x => Js.crlf (stripTrailingBlankLines x)) given).
  split.
  { unfold new_SonicPiCommandDescription. cbn [examples option_map].
    rewrite Hex. f_equal.
    rewrite !List.map_map. apply List.map_ext. reflexivity. }
  clear Hex. induction given as [|x given IH]; cbn [map]; constructor; [|exact IH].
  split; [apply crlf_no_lonelyLf |].
  split; [intros a; rewrite last_crlf; apply stripTrailingBlankLines_last |].
  destruct (stripTrailingBlankLines_split x) as (ws & Hx & Hws & Hkept).
  exists (stripTrailingBlankLines x), ws.
  split; [exact Hx |]. split; [exact Hws |]. split; [apply lfOnly_crlf | exact Hkept].
Qed.

Lemma example_blocks_fenced_witness :
  cfg_examples examplesConfig
  = Some (Many (map Str ["play 60" +:+ LF +:+ " " +:+ LF;
                         "play 70" +:+ CRLF +:+ "sleep 1  "]))
  /\ option_map (map value) (examples (new_SonicPiCommandDescription examplesConfig))
     = Some [fence "play 60"; fence ("play 70" +:+ CRLF +:+ "sleep 1  ")]
  /\ exists bodies,
      option_map (map value) (examples (new_SonicPiCommandDescription examplesConfig))
      = Some (map fence bodies)
      /\ Forall2
           (fun x body =>
              lonelyLf false body = false
              /\ (forall a, Js.last body = Some a -> (Js.code a =? 10) = false)
              /\ exists kept ws,
                  x = kept +:+ ws
                  /\ Js.all Js.isSpace ws = true
                  /\ lfOnly body = lfOnly kept
                  /\ (ws = ""
                      \/ (Js.last x = Some "010"%char
                          /\ forall a, Js.last kept = Some a ->
                                       Js.isSpace a = false)))
           ["play 60" +:+ LF +:+ " " +:+ LF; "play 70" +:+ CRLF +:+ "sleep 1  "]
           bodies.
Proof.
  split; [reflexivity |]. split; [reflexivity |].
  apply (example_blocks_fenced examplesConfig
           ["play 60" +:+ LF +:+ " " +:+ LF; "play 70" +:+ CRLF +:+ "sleep 1  "]).
  reflexivity.
Defined.

(** ** Formatting parsed descriptions *)

Lemma appendMarkdown_empty (ms : MarkdownString) : appendMarkdown ms "" = ms.
Proof. destruct ms as [v t]. unfold appendMarkdown; cbn. now rewrite append_nil_r. Qed.

Lemma prefix_split (p s : string) :
  String.prefix p s = true -> exists rest, s = p +:+ rest.
Proof.
  revert s; induction p as [|a p IH]; intros s H.
  - now exists s.
  - destruct s as [|b s]; [discriminate |]. rewrite prefix_cons in H.
    destruct (ascii_dec a b) as [<-|]; [|discriminate].
    destruct (IH s H) as [rest ->]. now exists rest.
Qed.

Lemma formatted_begins_with_signature d level flag :
  level <> OFF ->
  exists more, formatted d level flag = Some (signatureSection d flag +:+ more).
Proof.
  intros Hlevel. unfold formatted.
  destruct level; [congruence | | |]; cbn [format option_map];
    rewrite ?(value_appendMarkdown _ (examplesSection d)),
      ?(value_appendMarkdown _ (returnsSection d)),
      ?(value_appendMarkdown _ (parametersSection d)),
      ?(value_appendMarkdown _ (helpSection d _)),
      (value_appendMarkdown _ (signatureSection d flag));
    cbn [value trusted newMarkdownString]; rewrite append_nil_l;
    rewrite ?append_assoc; eexists; try reflexivity.
  now rewrite append_nil_r.
Qed.

(** X6.  For every description the parser produces, FULL formatting gives
    exactly what NO_EXAMPLES_NO_LINKS gives: no parsed command ever shows
    examples. *)
Theorem parsed_full_is_no_examples ydef cmds d flag :
  parseYamlDefinitions ydef = Ok cmds ->
  In d cmds ->
  format d FULL flag = format d NO_EXAMPLES_NO_LINKS flag.
Proof.
  intros Hparse Hin.
  pose proof (parsed_examples_empty ydef cmds d Hparse Hin) as Hex.
  unfold format. unfold examplesSection at 1. rewrite Hex.
  now rewrite appendMarkdown_empty.
Qed.

Lemma parsed_full_is_no_examples_witness :
  exists d,
    parseYamlDefinitions exampleTree = Ok [d]
    /\ format d FULL true = format d NO_EXAMPLES_NO_LINKS true.
Proof.
  eexists. split; [reflexivity |].
  eapply (parsed_full_is_no_examples exampleTree).
  - reflexivity.
  - left; reflexivity.
Defined.

(** X7.  For a parsed command with at least one supplied signature
    string, the text at every level but OFF, signature included, begins
    with the four spaces of the first signature line. *)
Theorem parsed_signature_leads ydef cmds d level :
  parseYamlDefinitions ydef = Ok cmds ->
  In d cmds ->
  signatureTexts d <> [] ->
  level <> OFF ->
  exists rest, formatted d level true = Some ("    " +:+ rest).
Proof.
  intros Hparse Hin Hsig Hlevel.
  destruct (parsed_signature_not_synthesized ydef cmds d Hparse Hin)
    as [supplied Hsup].
  destruct (formatted_begins_with_signature d level true Hlevel) as [more ->].
  unfold signatureSection. fold (signatureTexts d). rewrite Hsup in *.
  destruct supplied as [|x xs]; [now destruct Hsig |].
  destruct (prefix_split _ _ (startsWith_indentCommand x)) as [r Hr].
  cbn [map Js.join String.concat]. rewrite Hr.
  destruct (map indentCommand xs); rewrite ?append_assoc; eexists; reflexivity.
Qed.

Lemma parsed_signature_leads_witness :
  exists d,
    parseYamlDefinitions exampleTree = Ok [d]
    /\ signatureTexts d = ["    play note"]
    /\ exists rest, formatted d FULL true = Some ("    " +:+ rest).
Proof.
  eexists. split; [reflexivity |]. split; [reflexivity |].
  eapply (parsed_signature_leads exampleTree).
  - reflexivity.
  - left; reflexivity.
  - discriminate.
  - discriminate.
Defined.

(** ** The parser *)

Lemma mapM_map {A B C} (f : A -> Result B) (g : B -> C) (h : A -> C) :
  (forall a b, f a = Ok b -> g b = h a) ->
  forall l bs, mapM f l = Ok bs -> map g bs = map h l.
Proof.
  intros Hf l; induction l as [|a l IH]; intros bs H; cbn in H.
  - now injection H as <-.
  - destruct (f a) as [b|] eqn:Ea; [|discriminate]; cbn in H.
    destruct (mapM f l) as [bs'|] eqn:El; [|discriminate]; cbn in H.
    injection H as <-. cbn. f_equal; eauto.
Qed.

Lemma mapM_Throw {A B} (f : A -> Result B) (l : list A) (a : A) :
  In a l -> (exists e, f a = Throw e) -> exists e, mapM f l = Throw e.
Proof.
  intros Hin [e He]. induction l as [|x l IH]; [destruct Hin |]. cbn.
  destruct (f x) as [b|e'] eqn:Ex; cbn; [|eauto].
  destruct Hin as [-> | Hin]; [congruence |].
  destruct (IH Hin) as [e'' ->]. cbn. eauto.
Qed.

Lemma foldM_app {A S} (f : S -> A -> Result S) (l1 l2 : list A) (s : S) :
  foldM f s (l1 ++ l2) = let* s' := foldM f s l1 in foldM f s' l2.
Proof.
  revert s; induction l1 as [|a l1 IH]; intros s; cbn; [reflexivity |].
  destruct (f s a) as [s1|]; cbn; [apply IH | reflexivity].
Qed.

Lemma foldM_map_ext {A S} (f : S -> A -> Result S) (g : A -> A) (l : list A) :
  (forall s a, f s (g a) = f s a) ->
  forall s, foldM f s (map g l) = foldM f s l.
Proof.
  intros Hg. induction l as [|a l IH]; intros s; cbn; [reflexivity |].
  rewrite Hg. destruct (f s a); cbn; [apply IH | reflexivity].
Qed.

Lemma parseEntry_command entry d :
  parseEntry entry = Ok d -> command d = entryCommand entry.
Proof.
  destruct entry as [k v]. unfold parseEntry, entryCommand; cbn [fst snd].
  assert (Hobj : forall w,
             (let* entries := objectEntries w in
              let* st := foldM parseProperty initialLocals entries in
              Ok (new_SonicPiCommandDescription (configOf k st))) = Ok d ->
             command d = k).
  { intros w. destruct (objectEntries w) as [entries|]; cbn; [|discriminate].
    destruct (foldM parseProperty initialLocals entries) as [st|];
      cbn; [|discriminate].
    now intros [= <-]. }
  destruct v; try discriminate; try apply Hobj. now intros [= <-].
Qed.

(** X8.  The parser gives one description per top-level entry, in the
    order of the entries; each is named by the entry's key, or by the
    entry's value when that is a string (an alias). *)
Theorem parse_commands_in_order ydef cmds :
  parseYamlDefinitions ydef = Ok cmds ->
  map command cmds = map entryCommand (entriesOf ydef)
  /\ length cmds = length (entriesOf ydef).
Proof.
  unfold parseYamlDefinitions, entriesOf.
  destruct (objectEntries ydef) as [entries|]; cbn; [|discriminate].
  intros H.
  assert (Hmap : map command cmds = map entryCommand entries)
    by (eapply mapM_map; [exact parseEntry_command | exact H]).
  split; [exact Hmap |].
  now rewrite <- (length_map command), Hmap, length_map.
Qed.

Lemma parse_commands_in_order_witness :
  exists cmds,
    parseYamlDefinitions (YMap [("play", YNull); ("p", YStr "play"); ("stop", YNull)])
    = Ok cmds
    /\ map command cmds = ["play"; "play"; "stop"]
    /\ length cmds = 3.
Proof.
  eexists. split; [reflexivity |].
  eapply (parse_commands_in_order
            (YMap [("play", YNull); ("p", YStr "play"); ("stop", YNull)])).
  reflexivity.
Defined.

(** X9.  One top-level entry whose value is a number or a boolean makes
    the parse of the whole tree throw, whatever the other entries are;
    such a source then contributes no command to a reload. *)
Theorem scalar_entry_fails_whole_tree name props k v :
  In (k, v) props ->
  typeof v = "number" \/ typeof v = "boolean" ->
  (exists e, parseYamlDefinitions (YMap props) = Throw e)
  /\ parsedCommands [given name (YMap props)] = [].
Proof.
  intros Hin Hv.
  assert (Hthrow : exists e, parseYamlDefinitions (YMap props) = Throw e).
  { unfold parseYamlDefinitions; cbn. apply (mapM_Throw parseEntry props (k, v) Hin).
    destruct v; cbn in Hv; destruct Hv as [Hv | Hv]; try discriminate;
      eexists; reflexivity. }
  split; [exact Hthrow |].
  destruct Hthrow as [e He]. unfold parsedCommands, given. cbn [map ydef].
  now rewrite He.
Qed.

Lemma scalar_entry_fails_whole_tree_witness :
  (exists e,
      parseYamlDefinitions (YMap [("play", YNull); ("amp", YNum "0.5")]) = Throw e)
  /\ parsedCommands [given "synth.yaml" (YMap [("play", YNull); ("amp", YNum "0.5")])]
     = [].
Proof.
  apply (scalar_entry_fails_whole_tree "synth.yaml"
           [("play", YNull); ("amp", YNum "0.5")] "amp" (YNum "0.5")).
  - right; left; reflexivity.
  - left; reflexivity.
Defined.

Lemma isOneOf_cases names property :
  isOneOf names property = true -> In property names.
Proof.
  unfold isOneOf. rewrite existsb_exists.
  intros (x & Hin & Heq). apply String.eqb_eq in Heq. now subst.
Qed.

Lemma parseProperty_canonical st property v :
  parseProperty st (canonicalProperty property, v) = parseProperty st (property, v).
Proof.
  unfold canonicalProperty.
  destruct (isOneOf ["cmd"; "formattedCommand"] property) eqn:H1.
  { apply isOneOf_cases in H1. cbn in H1.
    destruct H1 as [<- | [<- | []]]; reflexivity. }
  destruct (isOneOf ["return"; "returns"] property) eqn:H2.
  { apply isOneOf_cases in H2. cbn in H2.
    destruct H2 as [<- | [<- | []]]; reflexivity. }
  destruct (isOneOf ["help"; "doc"] property) eqn:H3.
  { apply isOneOf_cases in H3. cbn in H3.
    destruct H3 as [<- | [<- | []]]; reflexivity. }
  destruct (isOneOf ["parm"; "param"; "params"; "parameters"] property) eqn:H4.
  { apply isOneOf_cases in H4. cbn in H4.
    destruct H4 as [<- | [<- | [<- | [<- | []]]]]; reflexivity. }
  destruct (isOneOf ["example"; "examples"] property) eqn:H5.
  { apply isOneOf_cases in H5. cbn in H5.
    destruct H5 as [<- | [<- | []]]; reflexivity. }
  reflexivity.
Qed.

(** X10.  Synonymous property names are interchangeable: replacing every
    property name of a descriptor by the first name of its group ([cmd],
    [returns], [help], [params], [examples]) does not change what the
    entry parses to. *)
Theorem synonyms_interchangeable k props :
  parseEntry (k, YMap (map (fun e => (canonicalProperty (fst e), snd e)) props))
  = parseEntry (k, YMap props).
Proof.
  unfold parseEntry; cbn [objectEntries bind].
  rewrite (foldM_map_ext parseProperty
             (fun e => (canonicalProperty (fst e), snd e))); [reflexivity |].
  intros st [p v]; cbn [fst snd]. apply parseProperty_canonical.
Qed.

Lemma parseProperty_unknown st property v :
  isOneOf knownProperties property = false -> parseProperty st (property, v) = Ok st.
Proof.
  intros H. unfold isOneOf, knownProperties in H. cbn [existsb] in H.
  repeat (apply orb_false_iff in H as [? H]).
  unfold parseProperty, isOneOf; cbn [existsb].
  repeat match goal with
         | Heq : String.eqb property _ = false |- _ => rewrite Heq; clear Heq
         end.
  reflexivity.
Qed.

(** X11.  A property whose name the parser does not know is ignored
    wherever it stands in a descriptor: the entry parses as it does
    without that property. *)
Theorem unknown_property_ignored k before after property v :
  isOneOf knownProperties property = false ->
  parseEntry (k, YMap (before ++ (property, v) :: after))
  = parseEntry (k, YMap (before ++ after)).
Proof.
  intros Hunknown. unfold parseEntry; cbn [objectEntries bind].
  rewrite !foldM_app.
  destruct (foldM parseProperty initialLocals before) as [st|]; cbn [bind];
    [|reflexivity].
  cbn [foldM]. now rewrite (parseProperty_unknown st property v Hunknown).
Qed.

Lemma unknown_property_ignored_witness :
  isOneOf knownProperties "default" = false
  /\ parseEntry ("play", YMap ([("doc", YStr "plays")]
                               ++ ("default", YNum "52") :: [("cmd", YStr "play n")]))
     = parseEntry ("play", YMap ([("doc", YStr "plays")] ++ [("cmd", YStr "play n")])).
Proof.
  split; [reflexivity |].
  apply (unknown_property_ignored "play" [("doc", YStr "plays")]
           [("cmd", YStr "play n")] "default" (YNum "52")).
  reflexivity.
Defined.

Lemma parseEntry_snoc k props entry :
  parseEntry (k, YMap (props ++ [entry]))
  = let* st := foldM parseProperty initialLocals props in
    let* st' := parseProperty st entry in
    Ok (new_SonicPiCommandDescription (configOf k st')).
Proof.
  unfold parseEntry; cbn [objectEntries bind]. rewrite foldM_app.
  destruct (foldM parseProperty initialLocals props) as [st|]; cbn [bind foldM];
    [|reflexivity].
  now destruct (parseProperty st entry).
Qed.

Lemma parseProperty_texts st entry st' :
  parseProperty st entry = Ok st' ->
  l_help st'
  = match (if isOneOf ["help"; "doc"] (fst entry)
           then stringOf (snd entry) else None) with
    | Some s => Some s
    | None => l_help st
    end
  /\ l_returns st'
     = match (if isOneOf ["return"; "returns"] (fst entry)
              then stringOf (snd entry) else None) with
       | Some s => Some s
       | None => l_returns st
       end.
Proof.
  destruct entry as [p v]; unfold parseProperty; cbn [fst snd].
  destruct (isOneOf ["cmd"; "formattedCommand"] p) eqn:H1.
  { apply isOneOf_cases in H1. cbn in H1.
    destruct H1 as [<- | [<- | []]]; destruct v; intros [= <-]; split; reflexivity. }
  destruct (isOneOf ["return"; "returns"] p) eqn:H2.
  { apply isOneOf_cases in H2. cbn in H2.
    destruct H2 as [<- | [<- | []]]; destruct v; intros [= <-]; split; reflexivity. }
  destruct (isOneOf ["help"; "doc"] p) eqn:H3.
  { destruct v; intros [= <-]; split; reflexivity. }
  destruct (isOneOf ["parm"; "param"; "params"; "parameters"] p) eqn:H4.
  { destruct v; cbn; try (intros [= <-]; split; reflexivity);
      destruct (mapM parseParameter _); cbn; try discriminate;
      intros [= <-]; split; reflexivity. }
  destruct (isOneOf ["example"; "examples"] p) eqn:H5.
  { destruct v; intros [= <-]; split; reflexivity. }
  intros [= <-]; split; reflexivity.
Qed.

Lemma stringsUnder_snoc names props entry :
  stringsUnder names (props ++ [entry])
  = stringsUnder names props
    ++ match (if isOneOf names (fst entry) then stringOf (snd entry) else None) with
       | Some s => [s]
       | None => []
       end.
Proof.
  unfold stringsUnder. rewrite omap_app. f_equal; cbn;
    try now destruct (if isOneOf names (fst entry) then stringOf (snd entry) else None).
Qed.

Lemma foldM_texts entries :
  forall st st',
    foldM parseProperty st entries = Ok st' ->
    l_help st'
    = match last (stringsUnder ["help"; "doc"] entries) with
      | Some s => Some s
      | None => l_help st
      end
    /\ l_returns st'
       = match last (stringsUnder ["return"; "returns"] entries) with
         | Some s => Some s
         | None => l_returns st
         end.
Proof.
  induction entries as [|e entries IH] using rev_ind; intros st st' H.
  - cbn in H. injection H as <-. split; reflexivity.
  - rewrite foldM_app in H.
    destruct (foldM parseProperty st entries) as [st1|] eqn:H1; cbn [bind] in H;
      [|discriminate].
    cbn [foldM] in H.
    destruct (parseProperty st1 e) as [st2|] eqn:H2; cbn [bind] in H; [|discriminate].
    injection H as <-.
    destruct (IH st st1 H1) as [Hh Hr].
    destruct (parseProperty_texts _ _ _ H2) as [Hh2 Hr2].
    rewrite !stringsUnder_snoc, !last_app, Hh2, Hr2.
    split.
    + destruct (if isOneOf ["help"; "doc"] (fst e) then stringOf (snd e) else None);
        [reflexivity | exact Hh].
    + destruct (if isOneOf ["return"; "returns"] (fst e)
                then stringOf (snd e) else None);
        [reflexivity | exact Hr].
Qed.

(** X12.  The help text of a parsed command is the last string that its
    descriptor gives under [help] or [doc], wherever that property
    stands, and there is none when the descriptor gives no such string;
    the same holds for the return text under [return] and [returns]. *)
Theorem later_text_wins k props d :
  parseEntry (k, YMap props) = Ok d ->
  option_map value (help d) = last (stringsUnder ["help"; "doc"] props)
  /\ option_map value (returns d)
     = last (stringsUnder ["return"; "returns"] props).
Proof.
  unfold parseEntry; cbn [objectEntries bind].
  destruct (foldM parseProperty initialLocals props) as [st|] eqn:Hf; cbn [bind];
    [|discriminate].
  intros [= <-]. destruct (foldM_texts props _ _ Hf) as [Hh Hr].
  cbn [help returns new_SonicPiCommandDescription configOf cfg_help cfg_returns].
  rewrite Hh, Hr. cbn [initialLocals l_help l_returns].
  split.
  - now destruct (last (stringsUnder ["help"; "doc"] props)).
  - now destruct (last (stringsUnder ["return"; "returns"] props)).
Qed.

Lemma later_text_wins_witness :
  exists d,
    parseEntry ("play", YMap [("help", YStr "old"); ("doc", YNum "3");
                              ("doc", YStr "new"); ("cmd", YStr "play n");
                              ("help", YNull)]) = Ok d
    /\ option_map value (help d) = Some "new"
    /\ option_map value (returns d) = None.
Proof.
  eexists. split; [reflexivity |].
  eapply (later_text_wins "play" [("help", YStr "old"); ("doc", YNum "3");
                                  ("doc", YStr "new"); ("cmd", YStr "play n");
                                  ("help", YNull)]).
  reflexivity.
Defined.

Lemma mapM_In {A B} (f : A -> Result B) (l : list A) (bs : list B) (a : A) :
  mapM f l = Ok bs -> In a l -> exists b, In b bs /\ f a = Ok b.
Proof.
  revert bs; induction l as [|x l IH]; intros bs H Hin; [destruct Hin |].
  cbn in H. destruct (f x) as [b|] eqn:Ex; [|discriminate]; cbn in H.
  destruct (mapM f l) as [bs'|] eqn:El; [|discriminate]; cbn in H.
  injection H as <-. destruct Hin as [-> | Hin].
  - exists b. split; [now left | exact Ex].
  - destruct (IH bs' eq_refl Hin) as (b' & Hb' & Hf). exists b'. split; [now right | exact Hf].
Qed.

Lemma parseParameter_name entry p :
  parseParameter entry = Ok p -> Parm.name p = fst entry.
Proof.
  destruct entry as [n v]; unfold parseParameter.
  destruct (match v with YStr s => Ok s | _ => toStringJs v end); cbn;
    [|discriminate].
  now intros [= <-].
Qed.

Lemma parseParameter_help entry p :
  parseParameter entry = Ok p ->
  Ok (value (Parm.help p)) = helpTextOf (snd entry).
Proof.
  destruct entry as [n v]; unfold parseParameter, helpTextOf; cbn [snd].
  destruct (match v with YStr s => Ok s | _ => toStringJs v end); cbn;
    [|discriminate].
  now intros [= <-].
Qed.

Lemma parseProperty_parameters st property ps st' :
  isOneOf ["parm"; "param"; "params"; "parameters"] property = true ->
  parseProperty st (property, YMap ps) = Ok st' ->
  exists parms,
    mapM parseParameter ps = Ok parms /\ l_parameters st' = Some parms.
Proof.
  intros Hp H. apply isOneOf_cases in Hp. cbn in Hp.
  destruct Hp as [<- | [<- | [<- | [<- | []]]]]; cbn in H;
    destruct (mapM parseParameter ps) as [parms|]; cbn in H; try discriminate;
    injection H as <-; eauto.
Qed.

Lemma parseProperty_sets_parameters st entry st' :
  parseProperty st entry = Ok st' ->
  if isOneOf ["parm"; "param"; "params"; "parameters"] (fst entry)
     && isObject (snd entry)
  then exists parms,
         mapM parseParameter (entriesOf (snd entry)) = Ok parms
         /\ l_parameters st' = Some parms
  else l_parameters st' = l_parameters st.
Proof.
  destruct entry as [p v]; unfold parseProperty; cbn [fst snd].
  destruct (isOneOf ["cmd"; "formattedCommand"] p) eqn:H1.
  { apply isOneOf_cases in H1. cbn in H1.
    destruct H1 as [<- | [<- | []]]; destruct v; intros [= <-]; reflexivity. }
  destruct (isOneOf ["return"; "returns"] p) eqn:H2.
  { apply isOneOf_cases in H2. cbn in H2.
    destruct H2 as [<- | [<- | []]]; destruct v; intros [= <-]; reflexivity. }
  destruct (isOneOf ["help"; "doc"] p) eqn:H3.
  { apply isOneOf_cases in H3. cbn in H3.
    destruct H3 as [<- | [<- | []]]; destruct v; intros [= <-]; reflexivity. }
  destruct (isOneOf ["parm"; "param"; "params"; "parameters"] p) eqn:H4.
  { destruct v; cbn [andb isObject]; try (intros [= <-]; reflexivity);
      unfold entriesOf; cbn [objectEntries bind];
      destruct (mapM parseParameter _) as [parms|]; cbn [bind]; try discriminate;
      intros [= <-]; exists parms; split; reflexivity. }
  cbn [andb].
  destruct (isOneOf ["example"; "examples"] p) eqn:H5.
  { destruct v; intros [= <-]; reflexivity. }
  now intros [= <-].
Qed.

Lemma parameterSources_snoc props entry :
  parameterSources (props ++ [entry])
  = parameterSources props
    ++ (if isOneOf ["parm"; "param"; "params"; "parameters"] (fst entry)
           && isObject (snd entry)
        then [entry] else []).
Proof.
  unfold parameterSources. rewrite filter_app, filter_cons, filter_nil.
  destruct (isOneOf ["parm"; "param"; "params"; "parameters"] (fst entry)
            && isObject (snd entry)); [reflexivity |].
  now destruct (decide (false = true)).
Qed.

Lemma foldM_parameters entries :
  forall st st',
    foldM parseProperty st entries = Ok st' ->
    match last (parameterSources entries) with
    | Some e => exists parms,
                  mapM parseParameter (entriesOf (snd e)) = Ok parms
                  /\ l_parameters st' = Some parms
    | None => l_parameters st' = l_parameters st
    end.
Proof.
  induction entries as [|e entries IH] using rev_ind; intros st st' H.
  - cbn in H. now injection H as <-.
  - rewrite foldM_app in H.
    destruct (foldM parseProperty st entries) as [st1|] eqn:H1; cbn [bind] in H;
      [|discriminate].
    cbn [foldM] in H.
    destruct (parseProperty st1 e) as [st2|] eqn:H2; cbn [bind] in H; [|discriminate].
    injection H as <-.
    pose proof (IH st st1 H1) as Hprev.
    pose proof (parseProperty_sets_parameters _ _ _ H2) as Hlast.
    rewrite parameterSources_snoc, last_app.
    destruct (isOneOf ["parm"; "param"; "params"; "parameters"] (fst e)
              && isObject (snd e)); cbn [last].
    + exact Hlast.
    + rewrite Hlast.
      destruct (last (parameterSources entries)); exact Hprev.
Qed.

(** X13.  The parameters of a parsed command are the entries of the last
    property of its descriptor that has a parameters name and a mapping
    or a sequence as value, wherever that property stands: each entry
    gives one parameter, in order, named by its key (its index, in a
    sequence), whose help text is the value when that is a string and
    the JavaScript string conversion of the value otherwise.  Without
    such a property the command has no parameters. *)
Theorem parameters_follow_mapping k props d :
  parseEntry (k, YMap props) = Ok d ->
  match last (parameterSources props) with
  | Some e =>
      exists parms,
        parameters d = Some parms
        /\ map Parm.name parms = map fst (entriesOf (snd e))
        /\ map (fun p => Ok (value (Parm.help p))) parms
           = map (fun kv => helpTextOf (snd kv)) (entriesOf (snd e))
  | None => parameters d = Some []
  end.
Proof.
  unfold parseEntry; cbn [objectEntries bind].
  destruct (foldM parseProperty initialLocals props) as [st|] eqn:Hf; cbn [bind];
    [|discriminate].
  intros [= <-]. pose proof (foldM_parameters props _ _ Hf) as Hp.
  cbn [parameters new_SonicPiCommandDescription configOf cfg_parameters].
  destruct (last (parameterSources props)) as [e|].
  - destruct Hp as (parms & Hm & ->). eexists. split; [reflexivity |]. split.
    + rewrite !List.map_map. cbn.
      exact (mapM_map parseParameter Parm.name fst parseParameter_name _ parms Hm).
    + rewrite !List.map_map. cbn.
      exact (mapM_map parseParameter (fun p => Ok (value (Parm.help p)))
               (fun kv => helpTextOf (snd kv)) parseParameter_help _ parms Hm).
  - rewrite Hp. reflexivity.
Qed.

Lemma parameters_follow_mapping_witness :
  exists d parms,
    parseEntry ("play", YMap [("parameters", YMap [("x", YStr "first")]);
                              ("params", YMap [("note", YStr "pitch");
                                               ("amp", YNum "0.5")]);
                              ("parm", YStr "not a mapping");
                              ("doc", YStr "plays")]) = Ok d
    /\ parameters d = Some parms
    /\ map Parm.name parms = ["note"; "amp"]
    /\ map (fun p => Ok (value (Parm.help p))) parms = [Ok "pitch"; Ok "0.5"].
Proof.
  eexists.
  destruct (parameters_follow_mapping "play"
              [("parameters", YMap [("x", YStr "first")]);
               ("params", YMap [("note", YStr "pitch"); ("amp", YNum "0.5")]);
               ("parm", YStr "not a mapping");
               ("doc", YStr "plays")] _ eq_refl)
    as (parms & H1 & H2 & H3).
  exists parms. split; [reflexivity |]. auto.
Defined.

(** X14.  A parameter whose value is a mapping (the shape that
    [tools/synth_parse_to_yaml.rb] writes) gets the help text
    ["[object Object]"]: the mapping's own help is not read. *)
Theorem mapping_valued_parameter k props property ps d name inner :
  isOneOf ["parm"; "param"; "params"; "parameters"] property = true ->
  parseEntry (k, YMap (props ++ [(property, YMap ps)])) = Ok d ->
  In (name, YMap inner) ps ->
  exists parms parm,
    parameters d = Some parms
    /\ In parm parms
    /\ Parm.name parm = name
    /\ value (Parm.help parm) = "[object Object]".
Proof.
  intros Hp. rewrite parseEntry_snoc.
  destruct (foldM parseProperty initialLocals props) as [st|]; cbn [bind];
    [|discriminate].
  destruct (parseProperty st (property, YMap ps)) as [st'|] eqn:Hst; cbn [bind];
    [|discriminate].
  intros [= <-] Hin.
  destruct (parseProperty_parameters _ _ _ _ Hp Hst) as (parms & Hm & Hl).
  destruct (mapM_In _ _ _ _ Hm Hin) as (p & Hpin & Hpp).
  eexists _, (trustParameter (defaultParameter p)).
  cbn [parameters new_SonicPiCommandDescription configOf cfg_parameters].
  rewrite Hl. split; [reflexivity |].
  split; [now apply in_map, in_map |].
  unfold parseParameter in Hpp; cbn in Hpp.
  destruct (hasOwn "toString" inner); cbn in Hpp; [discriminate |].
  injection Hpp as <-. split; reflexivity.
Qed.

Lemma mapping_valued_parameter_witness :
  exists d parms parm,
    parseEntry ("beep", YMap ([("help", YStr "A sine wave")]
                              ++ [("params",
                                   YMap [("note", YMap [("help", YStr "Note to play");
                                                        ("default", YNum "52")])])]))
    = Ok d
    /\ parameters d = Some parms
    /\ In parm parms
    /\ Parm.name parm = "note"
    /\ value (Parm.help parm) = "[object Object]".
Proof.
  eexists.
  destruct (mapping_valued_parameter "beep" [("help", YStr "A sine wave")] "params"
              [("note", YMap [("help", YStr "Note to play"); ("default", YNum "52")])]
              _ "note" [("help", YStr "Note to play"); ("default", YNum "52")]
              eq_refl eq_refl (or_introl eq_refl))
    as (parms & parm & H).
  exists parms, parm. split; [reflexivity | exact H].
Defined.

Lemma mapM_alias_entries (key : nat -> string) (chars : list ascii) :
  mapM parseEntry (imap (fun i a => (key i, YStr (String a EmptyString))) chars)
  = Ok (map (fun a => bareDescription (String a EmptyString)) chars).
Proof.
  revert key; induction chars as [|a chars IH]; intros key; [reflexivity |].
  cbn [imap mapM]. unfold parseEntry at 1. cbn [bind].
  change (imap ((fun i a => (key i, YStr (String a EmptyString))) ∘ S) chars)
    with (imap (fun i a => (key (S i), YStr (String a EmptyString))) chars).
  now rewrite (IH (fun i => key (S i))).
Qed.

(** X15.  A definition tree that is not a mapping: null makes the parse
    throw a TypeError; a number or a boolean gives no command and no
    error; a string gives one alias command per character, named by that
    character. *)
Theorem parse_tree_not_a_mapping :
  parseYamlDefinitions YNull = Throw TypeError
  /\ (forall b, parseYamlDefinitions (YBool b) = Ok [])
  /\ (forall shown, parseYamlDefinitions (YNum shown) = Ok [])
  /\ (forall s,
        parseYamlDefinitions (YStr s)
        = Ok (map (fun a => bareDescription (String a EmptyString))
                (list_ascii_of_string s))).
Proof.
  repeat split; intros; try reflexivity.
  unfold parseYamlDefinitions; cbn [objectEntries bind].
  apply mapM_alias_entries.
Qed.

(** ** The word resolver, further *)

Lemma getWordAtCursor_in_bounds lineText position :
  character position <= String.length (trimmedLine lineText) ->
  getWordAtCursor lineText position
  = found
      (Js.substr (trimmedLine lineText)
         (scanLeft (trimmedLine lineText) (character position))
         (scanRight (trimmedLine lineText)
            (S (String.length (trimmedLine lineText) - character position))
            (character position)
          - scanLeft (trimmedLine lineText) (character position)))
      (span (line position)
         (scanLeft (trimmedLine lineText) (character position))
         (scanRight (trimmedLine lineText)
            (S (String.length (trimmedLine lineText) - character position))
            (character position))).
Proof.
  intros Hc. unfold getWordAtCursor.
  replace (String.length (trimmedLine lineText) <? character position) with false
    by (symmetry; apply Nat.ltb_ge; exact Hc).
  destruct (scanLeft_spec (trimmedLine lineText) (character position)) as (Hs & _).
  destruct (scanRight_spec (trimmedLine lineText)
              (S (String.length (trimmedLine lineText) - character position))
              (character position)) as ((He & _) & _); [exact Hc | lia |].
  unfold found. now rewrite newRange_ordered by lia.
Qed.

Lemma getWordAtCursor_found_in_bounds lineText position w r :
  getWordAtCursor lineText position = found w r ->
  character position <= String.length (trimmedLine lineText).
Proof.
  unfold getWordAtCursor.
  destruct (String.length (trimmedLine lineText) <? character position) eqn:H;
    [discriminate |].
  intros _. now apply Nat.ltb_ge.
Qed.

Lemma matchesLeft_matchesRight (c : option ascii) :
  matchesLeft c = true -> matchesRight c = true.
Proof.
  destruct c as [a|]; cbn; [|discriminate]. intros ->. reflexivity.
Qed.

Lemma substring_length (line : string) :
  forall s n, s + n <= String.length line ->
              String.length (String.substring s n line) = n.
Proof.
  induction line as [|c line IH]; intros [|s] [|n] H; cbn in *; try lia;
    try reflexivity.
  - f_equal. apply (IH 0 n). lia.
  - apply (IH s 0). lia.
  - apply (IH s (S n)). lia.
Qed.

Lemma substring_all (p : ascii -> bool) (line : string) :
  forall s n,
    (forall i, s <= i < s + n ->
               exists a, String.get i line = Some a /\ p a = true) ->
    Js.all p (String.substring s n line) = true.
Proof.
  induction line as [|c line IH]; intros [|s] [|n] H; cbn; try reflexivity.
  - destruct (H 0) as (a & Ha & Hp); [lia |]. cbn in Ha. injection Ha as <-.
    rewrite Hp. cbn. apply (IH 0 n). intros i Hi.
    destruct (H (S i)) as (a & Ha & Hpa); [lia |]. eauto.
  - apply (IH s 0). intros i Hi; lia.
  - apply (IH s (S n)). intros i Hi.
    destruct (H (S i)) as (a & Ha & Hpa); [lia |]. eauto.
Qed.

(** X16.  A resolved word is made of characters of [[0-9a-zA-Z_']] only,
    its length is the length of its span, and the span lies on the
    cursor's line and contains the cursor. *)
Theorem resolved_word_chars lineText position w r :
  getWordAtCursor lineText position = found w r ->
  Js.all (inClass (identifierChars +:+ "'")) w = true
  /\ String.length w = endCharacter r - startCharacter r
  /\ startCharacter r <= character position <= endCharacter r
  /\ startLine r = line position
  /\ endLine r = line position.
Proof.
  intros Hfound.
  pose proof (getWordAtCursor_found_in_bounds _ _ _ _ Hfound) as Hc.
  rewrite (getWordAtCursor_in_bounds _ _ Hc) in Hfound.
  set (line' := trimmedLine lineText) in *. set (c := character position) in *.
  destruct (scanLeft_spec line' c) as (Hs & Hleft & _).
  destruct (scanRight_spec line' (S (String.length line' - c)) c)
    as ((He1 & He2) & Hright & _); [exact Hc | lia |].
  set (e := scanRight line' (S (String.length line' - c)) c) in *.
  set (s := scanLeft line' c) in *.
  injection Hfound as <- <-. cbn [span startCharacter endCharacter startLine endLine].
  split.
  { unfold Js.substr. apply substring_all. intros i Hi.
    assert (Hm : matchesRight (Js.charAt line' i) = true).
    { destruct (Nat.lt_ge_cases i c).
      - apply matchesLeft_matchesRight, Hleft. lia.
      - apply Hright. lia. }
    unfold Js.charAt in Hm. destruct (String.get i line') as [a|]; [|discriminate].
    exists a. split; [reflexivity |]. now rewrite <- matchesRight_class. }
  split; [unfold Js.substr; apply substring_length; lia |].
  repeat split; lia.
Qed.

Lemma resolved_word_chars_witness :
  getWordAtCursor "play_pattern [60] -- notes" (cursor 3 4)
  = found "play_pattern" (span 3 0 12)
  /\ Js.all (inClass (identifierChars +:+ "'")) "play_pattern" = true
  /\ String.length "play_pattern" = 12 - 0.
Proof.
  split; [reflexivity |].
  destruct (resolved_word_chars "play_pattern [60] -- notes" (cursor 3 4)
              "play_pattern" (span 3 0 12) eq_refl) as (H1 & H2 & _).
  split; [exact H1 | exact H2].
Defined.

Lemma length_append (s t : string) :
  String.length (s +:+ t) = String.length s + String.length t.
Proof.
  induction s as [|a s IH]; [reflexivity |].
  rewrite append_cons. cbn. now rewrite IH.
Qed.

Lemma stripTrailingSpace_length (s : string) :
  String.length (Js.stripTrailingSpace s) <= String.length s.
Proof.
  induction s as [|a s IH]; [reflexivity |]. cbn [Js.stripTrailingSpace].
  destruct (Js.all Js.isSpace (String a s)); cbn; lia.
Qed.

Lemma stripComment_length (pre rest : string) :
  Js.all (fun c => negb (Js.isLineTerminator c)) rest = true ->
  String.length (stripComment (pre +:+ "--" +:+ rest)) <= String.length pre.
Proof.
  intros Hrest. induction pre as [|a pre IH].
  - change ("" +:+ "--" +:+ rest) with (String "-" (String "-" rest)).
    assert (Hat : commentAt (String "-" (String "-" rest)) = true)
      by (unfold commentAt; now rewrite Hrest).
    cbn [stripComment]. now rewrite Hat.
  - rewrite append_cons. cbn [stripComment].
    destruct (commentAt (String a (pre +:+ "--" +:+ rest))); cbn; lia.
Qed.

(** X17.  A cursor placed after the start of a line comment (["--"] up
    to the end of the line) resolves to nothing. *)
Theorem cursor_in_comment_absent before rest position :
  Js.all (fun c => negb (Js.isLineTerminator c)) rest = true ->
  String.length before < character position ->
  getWordAtCursor (before +:+ "--" +:+ rest) position
  = {| word := None; range := None |}.
Proof.
  intros Hrest Hc. unfold getWordAtCursor.
  replace (String.length (trimmedLine (before +:+ "--" +:+ rest))
           <? character position) with true; [reflexivity |].
  symmetry. apply Nat.ltb_lt. unfold trimmedLine.
  pose proof (stripTrailingSpace_length (stripComment (before +:+ "--" +:+ rest))).
  pose proof (stripComment_length before rest Hrest). lia.
Qed.

Lemma cursor_in_comment_absent_witness :
  getWordAtCursor ("play 70 " +:+ "--" +:+ " comment") (cursor 0 12)
  = {| word := None; range := None |}.
Proof.
  apply (cursor_in_comment_absent "play 70 " " comment" (cursor 0 12)).
  - reflexivity.
  - vm_compute; lia.
Defined.

(** X18.  The resolved word does not depend on where the cursor stands
    between the start of the word and the original cursor: every such
    position resolves to the same word and span. *)
Theorem same_word_left_of_cursor lineText position w r c' :
  getWordAtCursor lineText position = found w r ->
  startCharacter r <= c' <= character position ->
  getWordAtCursor lineText (cursor (line position) c') = found w r.
Proof.
  intros Hfound Hc'.
  pose proof (getWordAtCursor_found_in_bounds _ _ _ _ Hfound) as Hc.
  rewrite (getWordAtCursor_in_bounds _ _ Hc) in Hfound.
  rewrite getWordAtCursor_in_bounds by (cbn; lia).
  cbn [cursor line character].
  set (line' := trimmedLine lineText) in *. set (c := character position) in *.
  destruct (scanLeft_spec line' c) as (Hs & Hleft & Hstart).
  destruct (scanRight_spec line' (S (String.length line' - c)) c)
    as ((He1 & He2) & Hright & Hend); [exact Hc | lia |].
  set (e := scanRight line' (S (String.length line' - c)) c) in *.
  set (s := scanLeft line' c) in *.
  injection Hfound as <- <-. cbn [span startCharacter] in Hc'.
  destruct (scanLeft_spec line' c') as (Hs' & Hleft' & Hstart').
  destruct (scanRight_spec line' (S (String.length line' - c')) c')
    as ((He1' & He2') & Hright' & Hend'); [lia | lia |].
  assert (Hsame_s : scanLeft line' c' = s).
  { apply (run_start_unique
             (fun i => matchesLeft (Js.charAt line' i) = true) c'); auto.
    - destruct Hstart' as [-> | ->]; [now left | right; discriminate].
    - lia.
    - intros i Hi. apply Hleft. lia.
    - destruct Hstart as [-> | ->]; [now left | right; discriminate]. }
  assert (Hsame_e : scanRight line' (S (String.length line' - c')) c' = e).
  { apply (run_end_unique
             (fun i => matchesRight (Js.charAt line' i) = true)
             c' (String.length line')); auto.
    - destruct Hend' as [-> | ->]; [now left | right; discriminate].
    - lia.
    - intros i Hi. destruct (Nat.lt_ge_cases i c).
      + apply matchesLeft_matchesRight, Hleft. lia.
      + apply Hright. lia.
    - destruct Hend as [-> | ->]; [now left | right; discriminate]. }
  now rewrite Hsame_s, Hsame_e.
Qed.

Lemma same_word_left_of_cursor_witness :
  getWordAtCursor "play_pattern [60]" (cursor 0 9) = found "play_pattern" (span 0 0 12)
  /\ getWordAtCursor "play_pattern [60]" (cursor 0 2) = found "play_pattern" (span 0 0 12).
Proof.
  split; [reflexivity |].
  apply (same_word_left_of_cursor "play_pattern [60]" (cursor 0 9)
           "play_pattern" (span 0 0 12) 2).
  - reflexivity.
  - cbn; lia.
Defined.

(** ** Completion, further *)

Lemma label_completionItem range key cdesc :
  label (completionItem range key cdesc) = key.
Proof. unfold completionItem. now destruct (parameters cdesc). Qed.

Lemma completion_labels range (l : list (string * SonicPiCommandDescription)) :
  map label (map (fun kv => completionItem range (fst kv) (snd kv)) l) = map fst l.
Proof.
  induction l as [|kv l IH]; cbn; [reflexivity |].
  now rewrite label_completionItem, IH.
Qed.

(** X19.  The completion items stand for exactly the registry keys that
    start with the word at the cursor, one item per key. *)
Theorem completion_offers_matching_keys
    (reg : gmap string SonicPiCommandDescription) lineText position items :
  provideCompletionItems reg lineText position = Some items ->
  exists prefix,
    word (getWordAtCursor lineText position) = Some prefix
    /\ (forall k, In k (map label items)
                  <-> is_Some (reg !! k) /\ Js.startsWith prefix k = true)
    /\ NoDup (map label items).
Proof.
  unfold provideCompletionItems.
  destruct (word (getWordAtCursor lineText position)) as [prefix|]; [|discriminate].
  destruct (range (getWordAtCursor lineText position)) as [r|]; [|discriminate].
  intros [= <-]. exists prefix. split; [reflexivity |].
  rewrite completion_labels. split.
  - intros k. rewrite in_map_iff. split.
    + intros ([k' d] & <- & Hin).
      apply list_elem_of_In, list_elem_of_filter in Hin as [Hp Hin].
      apply elem_of_map_to_list in Hin. cbn in *. split; [eauto | exact Hp].
    + intros [[d Hd] Hp]. exists (k, d). split; [reflexivity |].
      apply list_elem_of_In, list_elem_of_filter. split; [exact Hp |].
      now apply elem_of_map_to_list.
  - change (NoDup (fst <$> filter (fun kv => Js.startsWith prefix (fst kv) = true)
                             (map_to_list reg))).
    apply (sublist_NoDup _ ((map_to_list reg).*1)).
    + apply NoDup_fst_map_to_list.
    + apply fmap_sublist, sublist_filter.
Qed.

Lemma completion_offers_matching_keys_witness :
  exists items prefix,
    provideCompletionItems threeRegistry "pla" (cursor 0 3) = Some items
    /\ length items = 2
    /\ word (getWordAtCursor "pla" (cursor 0 3)) = Some prefix
    /\ (forall k, In k (map label items)
                  <-> is_Some (threeRegistry !! k) /\ Js.startsWith prefix k = true)
    /\ NoDup (map label items).
Proof.
  eexists.
  destruct (completion_offers_matching_keys threeRegistry "pla" (cursor 0 3)
              _ eq_refl) as (prefix & H).
  exists prefix. split; [reflexivity |]. split; [reflexivity | exact H].
Defined.

Lemma filter_all_true {A} (P : A -> Prop) `{forall x, Decision (P x)} (l : list A) :
  (forall x, P x) -> filter P l = l.
Proof.
  intros HP. induction l as [|x l IH]; [reflexivity |].
  rewrite filter_cons. destruct (decide (P x)); [now rewrite IH | now destruct n].
Qed.

(** X20.  Completion gives no list exactly when the cursor lies beyond
    the trimmed line; and when the word at the cursor is empty, every
    command of the registry is offered. *)
Theorem completion_edges
    (reg : gmap string SonicPiCommandDescription) lineText position :
  (provideCompletionItems reg lineText position = None
   <-> String.length (trimmedLine lineText) < character position)
  /\ (forall r, getWordAtCursor lineText position = found "" r ->
                exists items,
                  provideCompletionItems reg lineText position = Some items
                  /\ length items = size reg).
Proof.
  split.
  - unfold provideCompletionItems, getWordAtCursor.
    destruct (String.length (trimmedLine lineText) <? character position) eqn:H;
      cbn [word range].
    + apply Nat.ltb_lt in H. tauto.
    + apply Nat.ltb_ge in H. split; [discriminate | lia].
  - intros r Hfound. unfold provideCompletionItems. rewrite Hfound. cbn [found word range].
    eexists. split; [reflexivity |].
    rewrite length_map, filter_all_true; [apply length_map_to_list |].
    intros [k d]. cbn. now destruct k.
Qed.

Lemma completion_edges_witness :
  getWordAtCursor "play  x" (cursor 0 5) = found "" (span 0 5 5)
  /\ exists items,
      provideCompletionItems playRegistry "play  x" (cursor 0 5) = Some items
      /\ length items = size playRegistry.
Proof.
  split; [reflexivity |].
  apply (proj2 (completion_edges playRegistry "play  x" (cursor 0 5)) (span 0 5 5)).
  reflexivity.
Defined.

Lemma code_backtick (a : ascii) : (Js.code a =? 96) = Ascii.eqb a "`".
Proof. destruct a as [[] [] [] [] [] [] [] []]; reflexivity. Qed.

Lemma hasBacktick_cons a s :
  hasBacktick (String a s) = Ascii.eqb a "`" || hasBacktick s.
Proof.
  unfold hasBacktick. rewrite all_cons, negb_andb. now rewrite negb_involutive.
Qed.

Lemma hasBacktick_append s t :
  hasBacktick (s +:+ t) = hasBacktick s || hasBacktick t.
Proof.
  induction s as [|a s IH]; [reflexivity |].
  rewrite append_cons, !hasBacktick_cons, IH. apply orb_assoc.
Qed.

Lemma hasBacktick_removeBackticks s : hasBacktick (removeBackticks s) = false.
Proof.
  induction s as [|a s IH]; [reflexivity |]. cbn [removeBackticks].
  rewrite code_backtick. destruct (Ascii.eqb a "`") eqn:Ha; [exact IH |].
  now rewrite hasBacktick_cons, Ha, IH.
Qed.

Lemma hasBacktick_join sep (l : list string) :
  hasBacktick sep = false ->
  Forall (fun s => hasBacktick s = false) l ->
  hasBacktick (Js.join sep l) = false.
Proof.
  intros Hsep Hl. induction Hl as [|x l Hx Hl IH]; [reflexivity |].
  unfold Js.join in *. cbn [String.concat]. destruct l as [|y l]; [exact Hx |].
  now rewrite !hasBacktick_append, Hx, Hsep, IH.
Qed.

(** X21.  The detail text of a completion item never holds a backtick,
    whatever the signature blocks of the description hold. *)
Theorem completion_detail_plain range key cdesc :
  hasBacktick (detail (completionItem range key cdesc)) = false.
Proof.
  unfold completionItem. destruct (parameters cdesc); cbn [detail]; [|reflexivity].
  apply hasBacktick_join; [reflexivity |].
  apply List.Forall_forall. intros s Hs.
  apply in_map_iff in Hs as (m & <- & _). apply hasBacktick_removeBackticks.
Qed.

(** X22.  In a registry as reloads leave it, every completion item
    stands for the command stored under its label, and its insertion
    text begins with that label. *)
Theorem completion_inserts_label
    (reg : gmap string SonicPiCommandDescription) lineText position items item :
  loaded reg ->
  provideCompletionItems reg lineText position = Some items ->
  In item items ->
  exists d rest,
    reg !! label item = Some d
    /\ command d = label item
    /\ insertText item = Some (label item +:+ rest).
Proof.
  intros Hreg Hitems Hin. unfold provideCompletionItems in Hitems.
  destruct (word (getWordAtCursor lineText position)) as [prefix|]; [|discriminate].
  destruct (range (getWordAtCursor lineText position)) as [r|]; [|discriminate].
  injection Hitems as <-.
  apply in_map_iff in Hin as ([key cdesc] & <- & Hkv).
  apply list_elem_of_In, list_elem_of_filter in Hkv as [_ Hkv].
  apply elem_of_map_to_list in Hkv. cbn [fst snd] in *.
  destruct (Hreg key cdesc Hkv) as [Hcmd Hcons].
  destruct (constructed_parameters cdesc Hcons) as [ps Hps].
  rewrite label_completionItem. exists cdesc. eexists.
  split; [exact Hkv |]. split; [exact Hcmd |].
  unfold completionItem. rewrite Hps. cbn [insertText]. now rewrite Hcmd.
Qed.

Lemma completion_inserts_label_witness :
  loaded playRegistry
  /\ provideCompletionItems playRegistry "pl" (cursor 0 2) = Some [playItem]
  /\ exists d rest,
      playRegistry !! label playItem = Some d
      /\ command d = label playItem
      /\ insertText playItem = Some (label playItem +:+ rest).
Proof.
  assert (Hl : loaded playRegistry).
  { intros k d Hk. unfold playRegistry in Hk.
    apply lookup_singleton_Some in Hk as [<- <-]. split; [reflexivity | now eexists]. }
  split; [exact Hl |]. split; [vm_compute; reflexivity |].
  apply (completion_inserts_label playRegistry "pl" (cursor 0 2) [playItem] playItem).
  - exact Hl.
  - vm_compute; reflexivity.
  - left; reflexivity.
Defined.

(** ** Hover *)

(** X23.  Hovering over a word that the registry holds gives the FULL
    text of its description, signature included, over the span of the
    word. *)
Theorem hover_bound_word
    (own : gmap string SonicPiCommandDescription) proto lineText position w r d :
  getWordAtCursor lineText position = found w r ->
  own !! w = Some d ->
  exists md,
    format d FULL true = Some md
    /\ provideHover own proto lineText position
       = Ok (Some {| contents := md; hoverRange := r |}).
Proof.
  intros Hfound Hown. eexists. split; [reflexivity |].
  unfold provideHover. rewrite Hfound. cbn [found word range].
  unfold registryGet. now rewrite Hown.
Qed.

Lemma hover_bound_word_witness :
  exists md,
    format (new_SonicPiCommandDescription playConfig) FULL true = Some md
    /\ value md = "    play note amp" +:+ hline
                  +:+ "`note`  pitch    " +:+ CRLF +:+ "`amp` `ANY` loudness"
    /\ provideHover playRegistry None "play 60" (cursor 0 2)
       = Ok (Some {| contents := md; hoverRange := span 0 0 4 |}).
Proof.
  destruct (hover_bound_word playRegistry None "play 60" (cursor 0 2) "play"
              (span 0 0 4) (new_SonicPiCommandDescription playConfig)
              eq_refl eq_refl) as (md & Hmd & Hhover).
  exists md. split; [exact Hmd |]. split; [|exact Hhover].
  injection Hmd as <-. reflexivity.
Defined.

(** X24.  Hovering where there is no word gives nothing.  Hovering over
    a word that the registry does not hold, while the registry's
    prototype is untouched, gives nothing either, unless the word is the
    name of a member of [Object.prototype] (such as [constructor] or
    [toString]): then the lookup finds that member and calling [format]
    on it throws a TypeError. *)
Theorem hover_unbound_word
    (own : gmap string SonicPiCommandDescription) lineText position :
  (forall proto, word (getWordAtCursor lineText position) = None ->
                 provideHover own proto lineText position = Ok None)
  /\ (forall w r,
        getWordAtCursor lineText position = found w r ->
        own !! w = None ->
        provideHover own None lineText position
        = if inheritedFromObject w then Throw TypeError else Ok None).
Proof.
  split.
  - intros proto Hw. unfold provideHover. now rewrite Hw.
  - intros w r Hfound Hown. unfold provideHover. rewrite Hfound.
    cbn [found word range]. unfold registryGet. rewrite Hown.
    now destruct (inheritedFromObject w).
Qed.

Lemma hover_unbound_word_witness :
  provideHover playRegistry None "x = constructor" (cursor 0 6) = Throw TypeError
  /\ provideHover playRegistry None "x = sleep 1" (cursor 0 6) = Ok None.
Proof.
  split.
  - exact (proj2 (hover_unbound_word playRegistry "x = constructor" (cursor 0 6))
             "constructor" (span 0 4 15) eq_refl eq_refl).
  - exact (proj2 (hover_unbound_word playRegistry "x = sleep 1" (cursor 0 6))
             "sleep" (span 0 4 9) eq_refl eq_refl).
Defined.

(** ** Reloads *)

Lemma foldl_app_concat {A} (ls : list (list A)) (acc : list A) :
  foldl (fun x y => x ++ y) acc ls = acc ++ concat ls.
Proof.
  revert acc; induction ls as [|l ls IH]; intros acc; cbn.
  - now rewrite app_nil_r.
  - now rewrite IH, app_assoc.
Qed.

Lemma parsedCommands_app defs1 defs2 :
  parsedCommands (defs1 ++ defs2) = parsedCommands defs1 ++ parsedCommands defs2.
Proof.
  unfold parsedCommands. rewrite !foldl_app_concat, map_app, concat_app.
  reflexivity.
Qed.

Lemma parsedCommands_one def :
  parsedCommands [def]
  = match parseYamlDefinitions (ydef def) with
    | Ok cmds => cmds
    | Throw _ => []
    end.
Proof.
  unfold parsedCommands. rewrite foldl_app_concat. cbn. now rewrite app_nil_r.
Qed.

(** X25.  A source whose tree fails to parse is skipped: the commands of
    a reload are those of the other sources, in order. *)
Theorem failing_source_skipped defs1 bad defs2 e :
  parseYamlDefinitions (ydef bad) = Throw e ->
  parsedCommands (defs1 ++ bad :: defs2)
  = parsedCommands defs1 ++ parsedCommands defs2.
Proof.
  intros Hbad.
  change (bad :: defs2) with ([bad] ++ defs2).
  rewrite !parsedCommands_app, parsedCommands_one, Hbad. reflexivity.
Qed.

Lemma failing_source_skipped_witness :
  parsedCommands ([given "a.yaml" aTree]
                    ++ given "bad.yaml" (YMap [("amp", YNum "0.5")])
                    :: [given "b.yaml" abTree])
  = parsedCommands [given "a.yaml" aTree] ++ parsedCommands [given "b.yaml" abTree].
Proof.
  apply (failing_source_skipped [given "a.yaml" aTree]
           (given "bad.yaml" (YMap [("amp", YNum "0.5")]))
           [given "b.yaml" abTree]
           (Error "Invalid command description value type number")).
  reflexivity.
Defined.

Lemma lastNamed_app k xs ys :
  lastNamed k (xs ++ ys)
  = match lastNamed k ys with
    | Some d => Some d
    | None => lastNamed k xs
    end.
Proof.
  induction ys as [|y ys IH] using rev_ind.
  - now rewrite app_nil_r.
  - rewrite app_assoc, !lastNamed_snoc.
    destruct (decide (command y = k)); [reflexivity | exact IH].
Qed.

Section ReloadProperties.

Variable extensionPath : string.
Variable pathJoin : string -> string -> string.
Variable loadYaml : string -> option yvalue.

(** What a reload binds to any name. *)
Lemma init_lookup arg (reg : gmap string SonicPiCommandDescription) k :
  init extensionPath pathJoin loadYaml arg reg !! k
  = match (if String.eqb k "__proto__" then None
           else lastNamed k
                  (parsedCommands
                     (combinedDefinitions extensionPath pathJoin loadYaml arg)))
    with
    | Some d => Some d
    | None => if inheritedFromObject k then reg !! k else None
    end.
Proof.
  destruct (inheritedFromObject k) eqn:Hinh.
  - unfold init.
    set (cmds := parsedCommands
                   (combinedDefinitions extensionPath pathJoin loadYaml arg)).
    apply option_eq; intros d.
    rewrite map_lookup_filter_Some, commandDescriptions_after_sets.
    cbn [fst]. unfold typeofUndefined. rewrite Hinh, andb_false_r.
    destruct (String.eqb k "__proto__"); [tauto |].
    destruct (lastNamed k cmds); tauto.
  - rewrite init_lookup_own by exact Hinh.
    rewrite (inheritedFromObject_proto k Hinh).
    now destruct (lastNamed k _).
Qed.

(** X26.  Reloading twice from the same sources gives the registry that
    reloading once gives. *)
Theorem init_idempotent arg (reg : gmap string SonicPiCommandDescription) :
  init extensionPath pathJoin loadYaml arg
    (init extensionPath pathJoin loadYaml arg reg)
  = init extensionPath pathJoin loadYaml arg reg.
Proof.
  apply map_eq; intros k. rewrite !init_lookup.
  destruct (if String.eqb k "__proto__" then None else lastNamed k _);
    [reflexivity |].
  now destruct (inheritedFromObject k).
Qed.

Lemma lastNamed_command k cmds d : lastNamed k cmds = Some d -> command d = k.
Proof.
  unfold lastNamed. intros H.
  now apply last_Some_elem_of, list_elem_of_filter in H as [Hk _].
Qed.

(** X27.  A reload keeps the registry well keyed: when every entry was
    stored under the name of its own command and came out of the
    constructor, the same holds afterwards.  The empty registry is such
    a registry. *)
Theorem init_keeps_loaded arg (reg : gmap string SonicPiCommandDescription) :
  loaded (∅ : gmap string SonicPiCommandDescription)
  /\ (loaded reg -> loaded (init extensionPath pathJoin loadYaml arg reg)).
Proof.
  split; [intros k d H; now rewrite lookup_empty in H |].
  intros Hreg k d. rewrite init_lookup.
  destruct (if String.eqb k "__proto__" then None else lastNamed k _) as [d'|] eqn:Hl.
  - intros [= <-]. destruct (String.eqb k "__proto__"); [discriminate |].
    split; [now apply lastNamed_command in Hl |].
    unfold lastNamed in Hl.
    apply last_Some_elem_of, list_elem_of_filter in Hl as [_ Hin].
    pose proof (parsedCommands_constructed
                  (combinedDefinitions extensionPath pathJoin loadYaml arg)) as Hall.
    rewrite Forall_forall in Hall. now apply Hall.
  - destruct (inheritedFromObject k); [apply Hreg | discriminate].
Qed.

(** X28.  From the empty registry, a reload binds every parsed command
    name other than ["__proto__"] to the last description parsed for it,
    and nothing else. *)
Theorem init_from_empty arg k :
  init extensionPath pathJoin loadYaml arg ∅ !! k
  = if String.eqb k "__proto__" then None
    else lastNamed k
           (parsedCommands (combinedDefinitions extensionPath pathJoin loadYaml arg)).
Proof.
  rewrite init_lookup, lookup_empty.
  destruct (String.eqb k "__proto__"); [now destruct (inheritedFromObject k) |].
  destruct (lastNamed k _); [reflexivity |]. now destruct (inheritedFromObject k).
Qed.

Lemma combinedDefinitions_default :
  combinedDefinitions extensionPath pathJoin loadYaml None
  = match loadYaml (pathJoin extensionPath "synth.yaml") with
    | Some tree => [given (pathJoin extensionPath "synth.yaml") tree]
    | None => []
    end.
Proof.
  unfold combinedDefinitions, defaultSources, given. cbn.
  now destruct (loadYaml (pathJoin extensionPath "synth.yaml")).
Qed.

Lemma combinedDefinitions_given defs :
  combinedDefinitions extensionPath pathJoin loadYaml (Some defs) = defs.
Proof. reflexivity. Qed.

(** X29.  The reload command reads [synth.yaml] in the extension's
    directory: when the file decodes, the reload is the one from that
    tree; when reading or decoding fails, the parse pass is empty and
    every command whose name a plain object does not inherit is
    removed. *)
Theorem init_default_source (reg : gmap string SonicPiCommandDescription) :
  match loadYaml (pathJoin extensionPath "synth.yaml") with
  | Some tree =>
      init extensionPath pathJoin loadYaml None reg
      = init extensionPath pathJoin loadYaml
          (Some [given (pathJoin extensionPath "synth.yaml") tree]) reg
  | None =>
      forall k, init extensionPath pathJoin loadYaml None reg !! k
                = if inheritedFromObject k then reg !! k else None
  end.
Proof.
  pose proof combinedDefinitions_default as Hdef.
  destruct (loadYaml (pathJoin extensionPath "synth.yaml")) as [tree|].
  - unfold init. now rewrite Hdef, combinedDefinitions_given.
  - intros k. rewrite init_lookup, Hdef.
    now destruct (String.eqb k "__proto__").
Qed.

(** X30.  When several sources define a command, the registry holds
    the description from the last source that defines it, whatever
    sources come before or after; this holds for every command name but
    ["__proto__"]. *)
Theorem later_source_wins before def after cmds k d
    (reg : gmap string SonicPiCommandDescription) :
  parseYamlDefinitions (ydef def) = Ok cmds ->
  lastNamed k cmds = Some d ->
  k ∉ map command (parsedCommands after) ->
  String.eqb k "__proto__" = false ->
  init extensionPath pathJoin loadYaml (Some (before ++ def :: after)) reg !! k
  = Some d.
Proof.
  intros Hparse Hlast Hafter Hproto. rewrite init_lookup, Hproto.
  rewrite combinedDefinitions_given.
  change (def :: after) with ([def] ++ after).
  rewrite !parsedCommands_app, !lastNamed_app, parsedCommands_one, Hparse, Hlast.
  apply lastNamed_None in Hafter. now rewrite Hafter.
Qed.

End ReloadProperties.

Lemma later_source_wins_witness :
  init "" (fun _ name => name) (fun _ => None)
    (Some ([given "a.yaml" (YMap [("toString", YMap [("help", YStr "old")])])]
             ++ given "b.yaml" (YMap [("toString", YMap [("help", YStr "new")])])
             :: [given "c.yaml" aTree; given "bad.yaml" YNull]))
    ∅ !! "toString"
  = Some (new_SonicPiCommandDescription
            (configOf "toString"
               {| l_parameters := None; l_examples := None;
                  l_formattedCommand := []; l_help := Some "new";
                  l_returns := None |})).
Proof.
  eapply (later_source_wins "" (fun _ name => name) (fun _ => None)
            [given "a.yaml" (YMap [("toString", YMap [("help", YStr "old")])])]
            (given "b.yaml" (YMap [("toString", YMap [("help", YStr "new")])]))
            [given "c.yaml" aTree; given "bad.yaml" YNull]).
  - reflexivity.
  - reflexivity.
  - vm_compute. intros H. apply list_elem_of_In in H. cbn in H.
    destruct H as [H | []]. discriminate.
  - reflexivity.
Defined.

Lemma init_keeps_loaded_witness :
  loaded (∅ : gmap string SonicPiCommandDescription)
  /\ loaded (init "" (fun _ name => name) (fun _ => None)
               (Some [given "synth.yaml" threeTree]) ∅).
Proof.
  split.
  - exact (proj1 (init_keeps_loaded "" (fun _ name => name) (fun _ => None)
                    (Some [given "synth.yaml" threeTree]) ∅)).
  - apply (proj2 (init_keeps_loaded "" (fun _ name => name) (fun _ => None)
                    (Some [given "synth.yaml" threeTree]) ∅)).
    intros k d H. now rewrite lookup_empty in H.
Defined.
